(** * Shelf packing of images onto pages (task_1_starter_code.py)

    A shallow embedding of [pack_images_shelf], of the size
    normalisation, page size and file naming done in [main], of
    [list_images] and [compose_pages], and of the file naming and shape
    boxes of [generate_sample_images] (sample_data_generation.py).  Python integers are [Z]; Python floats
    are IEEE-754 binary64 values, modelled with the Standard Library's
    [SpecFloat] (precision 53, emax 1024).  Python exceptions and
    non-termination are made explicit in the result type [outcome]. *)

From Stdlib Require Import Strings.String Strings.Ascii Numbers.DecimalString.
From Stdlib Require Import ZArith List Bool Lia Sorted Permutation.
From Stdlib Require Import Floats.SpecFloat.
From Stdlib Require Numbers.DecimalN.
Import ListNotations.
Open Scope Z_scope.

(** ** Python runtime: exceptions, results, floats *)

Inductive exn : Type :=
| IndexError          (* images_sizes[i] with i = len(images_sizes) *)
| RuntimeError        (* raise RuntimeError("Page width too small ...") *)
| ZeroDivisionError   (* int / 0 *)
| OverflowError       (* int too large for a float, or round(inf) *)
| ValueError.         (* round(nan) *)

(** The outcome of running a Python fragment: a value, an uncaught
    exception, or a run that never terminates. *)
Inductive outcome (A : Type) : Type :=
| Ok (a : A)
| Raise (e : exn)
| Diverge.
Arguments Ok {A} a.
Arguments Raise {A} e.
Arguments Diverge {A}.

Definition bind {A B : Type} (m : outcome A) (k : A -> outcome B) : outcome B :=
  match m with
  | Ok a => k a
  | Raise e => Raise e
  | Diverge => Diverge
  end.

Notation "x <- m ;; k" := (bind m (fun x => k))
  (at level 61, m at next level, right associativity).

(** binary64 *)
Definition prec : Z := 53.
Definition emax : Z := 1024.

(** [float(z)] for a Python int (PyLong_AsDouble): round half to even,
    [OverflowError] when the rounded value is out of range. *)
Definition float_of_int (z : Z) : outcome spec_float :=
  match binary_normalize prec emax z 0 false with
  | S754_infinity _ => Raise OverflowError
  | f => Ok f
  end.

(** [a / b] for two Python ints: the correctly rounded quotient. *)
Definition py_int_truediv (a b : Z) : outcome spec_float :=
  if Z.eqb b 0 then Raise ZeroDivisionError else
  let neg := xorb (Z.ltb a 0) (Z.ltb b 0) in
  match Z.abs a with
  | Zpos ma =>
      match SFdiv prec emax (S754_finite neg ma 0)
                            (S754_finite false (Z.to_pos (Z.abs b)) 0) with
      | S754_infinity _ => Raise OverflowError
      | f => Ok f
      end
  | _ => Ok (S754_zero neg)
  end.

(** [int * float]: the int is converted first, then multiplied. *)
Definition py_int_mul_float (a : Z) (f : spec_float) : outcome spec_float :=
  fa <- float_of_int a ;; Ok (SFmul prec emax fa f).

(** [m / 2^d] rounded half to even, for [m >= 0]. *)
Definition round_half_even_shift (m : Z) (d : positive) : Z :=
  let q := Z.shiftr m (Zpos d) in
  let r := m - Z.shiftl q (Zpos d) in
  let half := Z.shiftl 1 (Zpos d - 1) in
  match Z.compare r half with
  | Lt => q
  | Gt => q + 1
  | Eq => if Z.even q then q else q + 1
  end.

(** [round(f)] for a float (result already an int, so [int(...)] is the
    identity): round half to even. *)
Definition py_round (f : spec_float) : outcome Z :=
  match f with
  | S754_zero _ => Ok 0
  | S754_infinity _ => Raise OverflowError
  | S754_nan => Raise ValueError
  | S754_finite s m e =>
      let v := match e with
               | Zneg d => round_half_even_shift (Zpos m) d
               | _ => Z.shiftl (Zpos m) e
               end in
      Ok (if s then - v else v)
  end.

(** [min(cur, x)] keeps [cur] unless [x < cur]. *)
Definition py_min2 (cur x : spec_float) : spec_float :=
  if SFltb x cur then x else cur.

Definition float_one : spec_float := SFone prec emax.

(** ** Data *)

(** An entry of [images_sizes]: [(w_px, h_px, original_index)]. *)
Definition size : Type := (Z * Z * Z)%type.
(** A placement [(index, x, y, w, h)]. *)
Definition placement : Type := (Z * Z * Z * Z * Z)%type.

Definition sz_w (s : size) : Z := let '(w, _, _) := s in w.
Definition sz_h (s : size) : Z := let '(_, h, _) := s in h.
Definition sz_idx (s : size) : Z := let '(_, _, i) := s in i.

Definition pl_idx (p : placement) : Z := let '(i, _, _, _, _) := p in i.
Definition pl_x (p : placement) : Z := let '(_, x, _, _, _) := p in x.
Definition pl_y (p : placement) : Z := let '(_, _, y, _, _) := p in y.
Definition pl_w (p : placement) : Z := let '(_, _, _, w, _) := p in w.
Definition pl_h (p : placement) : Z := let '(_, _, _, _, h) := p in h.

(** ** pack_images_shelf *)

Section Pack.

Variables page_w_px page_h_px padding : Z.

(** The innermost [while i < n] loop: images are placed left to right
    while [w + shelf_x + padding <= page_w_px].  The remaining images play
    the role of the index [i].  Returns the placements, the final
    [shelf_x], the final [shelf_height] and the remaining images. *)
Fixpoint fill_shelf (y shelf_x shelf_height : Z) (rest : list size)
  : list placement * Z * Z * list size :=
  match rest with
  | [] => ([], shelf_x, shelf_height, [])
  | (w, h, idx) :: rest' =>
      if Z.leb (w + shelf_x + padding) page_w_px then
        let '(ps, sx, sh, r) :=
          fill_shelf y (shelf_x + (w + padding))
                     (if Z.gtb h shelf_height then h else shelf_height) rest' in
        ((idx, shelf_x, y, w, h) :: ps, sx, sh, r)
      else ([], shelf_x, shelf_height, rest)
  end.

(** The [if shelf_height == 0] branch: the image at index [i] is forced
    to the usable width.  Returns the placement, the new [shelf_height]
    and the remaining images. *)
Definition fallback (y : Z) (rest : list size) : outcome (placement * Z * list size) :=
  match rest with
  | [] => Raise IndexError
  | (w, h, idx) :: rest' =>
      let max_w := page_w_px - 2 * padding in
      if Z.leb max_w 0 then Raise RuntimeError else
      scale <- py_int_truediv max_w w ;;
      fw <- py_int_mul_float w scale ;;
      new_w <- py_round fw ;;
      fh <- py_int_mul_float h scale ;;
      new_h <- py_round fh ;;
      Ok ((idx, padding, y, new_w, new_h), new_h, rest')
  end.

(** One shelf: the inner loop, then the fallback when [shelf_height == 0]. *)
Definition shelf_step (y : Z) (rest : list size) : outcome (list placement * Z * list size) :=
  let '(ps, _, sh, rest1) := fill_shelf y padding 0 rest in
  if Z.eqb sh 0 then
    r <- fallback y rest1 ;;
    let '(p, new_h, rest2) := r in
    Ok (ps ++ [p], new_h, rest2)
  else Ok (ps, sh, rest1).

(** The middle loop [while y < page_h_px - padding and i < n] of one
    page, with the [break] when the next shelf would start at or below
    [page_h_px - padding].  Every shelf consumes at least one image (or
    raises), so [fuel] = the number of remaining images always suffices:
    when it is exhausted no image remains and the loop condition is false
    (see [fill_page_fuel] below). *)
Fixpoint fill_page (fuel : nat) (y : Z) (rest : list size)
  : outcome (list placement * list size) :=
  match fuel with
  | O => Ok ([], rest)
  | S fuel' =>
      if Z.ltb y (page_h_px - padding) && negb (match rest with [] => true | _ => false end)
      then
        r <- shelf_step y rest ;;
        let '(ps, sh, rest') := r in
        let y' := y + sh + padding in
        if Z.geb y' (page_h_px - padding) && negb (match rest' with [] => true | _ => false end)
        then Ok (ps, rest')
        else
          r2 <- fill_page fuel' y' rest' ;;
          let '(ps2, rest'') := r2 in
          Ok (ps ++ ps2, rest'')
      else Ok ([], rest)
  end.

Definition fill_one_page (rest : list size) : outcome (list placement * list size) :=
  fill_page (S (length rest)) padding rest.

(** The outer loop [while i < n].  A page that places no image leaves
    the loop state unchanged, so the Python loop then runs forever
    (appending empty pages): that is [Diverge].  Otherwise each page
    consumes an image, so [fuel] = the number of images suffices. *)
Fixpoint pack_loop (fuel : nat) (rest : list size) : outcome (list (list placement)) :=
  match rest with
  | [] => Ok []
  | _ :: _ =>
      match fuel with
      | O => Diverge
      | S fuel' =>
          r <- fill_one_page rest ;;
          let '(placements, rest') := r in
          if Nat.eqb (length rest') (length rest) then Diverge
          else
            pages <- pack_loop fuel' rest' ;;
            Ok (placements :: pages)
      end
  end.

End Pack.

Definition pack_images_shelf (images_sizes : list size) (page_w_px page_h_px padding : Z)
  : outcome (list (list placement)) :=
  pack_loop page_w_px page_h_px padding (S (length images_sizes)) images_sizes.


(** ** Size normalisation in [main] *)

(** [scale = min(1.0, max_w / w if w>0 else 1.0, max_h / h if h>0 else 1.0)]. *)
Definition norm_scale (w h max_w max_h : Z) : outcome spec_float :=
  sw <- (if Z.gtb w 0 then py_int_truediv max_w w else Ok float_one) ;;
  sh <- (if Z.gtb h 0 then py_int_truediv max_h h else Ok float_one) ;;
  Ok (py_min2 (py_min2 float_one sw) sh).

(** [w2 = int(round(w * scale))], [h2 = int(round(h * scale))]. *)
Definition normalize_size (w h max_w max_h : Z) : outcome (Z * Z) :=
  scale <- norm_scale w h max_w max_h ;;
  fw <- py_int_mul_float w scale ;;
  w2 <- py_round fw ;;
  fh <- py_int_mul_float h scale ;;
  h2 <- py_round fh ;;
  Ok (w2, h2).

(** ** Sorting in [main] *)

(** [sizes.sort(key=lambda x: x[1], reverse=True)].  Python's sort is
    stable, also with [reverse=True] (equal keys keep their original
    order), so its result is the one stable sort by height, descending:
    each element is inserted after every element already sorted whose
    height is at least its own. *)
Fixpoint insert_by_h (x : size) (l : list size) : list size :=
  match l with
  | [] => [x]
  | a :: l' => if Z.leb (sz_h x) (sz_h a) then a :: insert_by_h x l' else x :: l
  end.

Definition sort_by_h_desc (l : list size) : list size :=
  fold_left (fun acc x => insert_by_h x acc) l [].

(** ** Strings *)

(** Python strings are modelled as byte strings ([string]); the names
    handled by the program are ASCII, for which [str.lower] and
    [str.upper] change the letters A-Z / a-z only. *)
Definition ascii_lower (c : ascii) : ascii :=
  let n := nat_of_ascii c in
  if (Nat.leb 65 n && Nat.leb n 90)%nat then ascii_of_nat (n + 32)%nat else c.

Definition ascii_upper (c : ascii) : ascii :=
  let n := nat_of_ascii c in
  if (Nat.leb 97 n && Nat.leb n 122)%nat then ascii_of_nat (n - 32)%nat else c.

Fixpoint str_map (f : ascii -> ascii) (s : string) : string :=
  match s with
  | EmptyString => EmptyString
  | String c s' => String (f c) (str_map f s')
  end.

Definition str_lower (s : string) : string := str_map ascii_lower s.
Definition str_upper (s : string) : string := str_map ascii_upper s.

(** [s.endswith(suffix)]. *)
Definition str_endswith (s suffix : string) : bool :=
  let n := String.length s in
  let k := String.length suffix in
  (Nat.leb k n && String.eqb (substring (n - k) k s) suffix)%nat.

(** [os.path.join(a, b)] (posixpath). *)
Definition path_join (a b : string) : string :=
  if String.prefix "/" b then b
  else if String.eqb a "" || str_endswith a "/" then (a ++ b)%string
  else (a ++ "/" ++ b)%string.

(** [sorted(l)] for a list of strings: Python compares strings code
    point by code point, a proper prefix first, which is [String.compare]
    on their bytes.  Python's sort is stable; this insertion sort puts
    each element after the equal ones already sorted. *)
Fixpoint insert_str (x : string) (l : list string) : list string :=
  match l with
  | [] => [x]
  | a :: l' => if String.leb a x then a :: insert_str x l' else x :: l
  end.

Definition py_sorted_str (l : list string) : list string :=
  fold_left (fun acc x => insert_str x acc) l [].

(** [str(n)] for an int. *)
Definition py_str_nonneg (n : Z) : string :=
  NilEmpty.string_of_uint (N.to_uint (Z.to_N n)).

Definition py_str_int (n : Z) : string :=
  if Z.ltb n 0 then ("-" ++ py_str_nonneg (- n))%string else py_str_nonneg n.

Fixpoint zeros (k : nat) : string :=
  match k with
  | O => EmptyString
  | S k' => String "0" (zeros k')
  end.

(** [f"{n:03d}"]: the sign, then zeros up to a width of 3, then the
    digits. *)
Definition py_format_03d (n : Z) : string :=
  let sign := if Z.ltb n 0 then "-"%string else EmptyString in
  let digits := py_str_nonneg (Z.abs n) in
  (sign ++ zeros (3 - (String.length sign + String.length digits)) ++ digits)%string.

(** ** list_images *)

Definition image_exts : list string :=
  [".png"; ".jpg"; ".jpeg"; ".webp"; ".tiff"; ".bmp"]%string.

(** [f.lower().endswith(exts)]: [str.endswith] with a tuple tests each
    suffix. *)
Definition is_image_name (f : string) : bool :=
  existsb (str_endswith (str_lower f)) image_exts.

(** [[os.path.join(folder, f) for f in sorted(os.listdir(folder)) if
    f.lower().endswith(exts)]]; [listing] is what [os.listdir(folder)]
    returned, in any order. *)
Definition list_images (folder : string) (listing : list string) : list string :=
  map (path_join folder) (filter is_image_name (py_sorted_str listing)).

(** ** Page size in [main] *)

(** The binary64 values of the literals 8.27, 11.69, 8.5 and 11.0. *)
Definition lit_8_27 : spec_float := S754_finite false 4655596114794250 (-49).
Definition lit_11_69 : spec_float := S754_finite false 6580884955495137 (-49).
Definition lit_8_5 : spec_float := S754_finite false 4785074604081152 (-49).
Definition lit_11_0 : spec_float := S754_finite false 6192449487634432 (-49).

Definition PAGE_SIZES_INCH : list (string * (spec_float * spec_float)) :=
  [("A4", (lit_8_27, lit_11_69)); ("LETTER", (lit_8_5, lit_11_0))]%string.

Fixpoint assoc_get {A} (k : string) (l : list (string * A)) : option A :=
  match l with
  | [] => None
  | (k', v) :: l' => if String.eqb k k' then Some v else assoc_get k l'
  end.

(** [PAGE_SIZES_INCH.get(args.page.upper(), PAGE_SIZES_INCH["A4"])]. *)
Definition page_inches (page : string) : spec_float * spec_float :=
  match assoc_get (str_upper page) PAGE_SIZES_INCH with
  | Some v => v
  | None => (lit_8_27, lit_11_69)
  end.

(** [float * int]: the int is converted first, then multiplied. *)
Definition py_float_mul_int (f : spec_float) (a : Z) : outcome spec_float :=
  fa <- float_of_int a ;; Ok (SFmul prec emax f fa).

(** [page_w_px = int(round(page_inches[0] * args.dpi))], and the same
    for the height. *)
Definition page_px (page : string) (dpi : Z) : outcome (Z * Z) :=
  let '(wi, hi) := page_inches page in
  fw <- py_float_mul_int wi dpi ;;
  page_w_px <- py_round fw ;;
  fh <- py_float_mul_int hi dpi ;;
  page_h_px <- py_round fh ;;
  Ok (page_w_px, page_h_px).

(** ** Layout in [main] *)

(** The [for i, im in enumerate(pil_images)] loop: [dims] are the
    [im.size] of the images, [i] their index. *)
Fixpoint main_sizes_from (i : Z) (dims : list (Z * Z)) (page_w_px page_h_px : Z)
  : outcome (list size) :=
  match dims with
  | [] => Ok []
  | (w, h) :: dims' =>
      r <- normalize_size w h (page_w_px - 16) (page_h_px - 16) ;;
      let '(w2, h2) := r in
      sizes <- main_sizes_from (i + 1) dims' page_w_px page_h_px ;;
      Ok ((w2, h2, i) :: sizes)
  end.

(** Sizes, sort, then [pack_images_shelf(sizes, page_w_px, page_h_px,
    padding=12)]. *)
Definition main_layout (dims : list (Z * Z)) (page_w_px page_h_px : Z)
  : outcome (list (list placement)) :=
  sizes <- main_sizes_from 0 dims page_w_px page_h_px ;;
  pack_images_shelf (sort_by_h_desc sizes) page_w_px page_h_px 12.

(** [os.path.join(out, f"page_{i:03d}.jpg")] for the pages enumerated
    from 1. *)
Definition page_file_name (out : string) (i : Z) : string :=
  path_join out ("page_" ++ py_format_03d i ++ ".jpg")%string.

Definition page_file_names (out : string) (n : nat) : list string :=
  map (fun i => page_file_name out (Z.of_nat i)) (seq 1 n).

(** ** compose_pages *)

(** [pil_images[idx]]: negative indices count from the end. *)
Definition py_list_get {A} (l : list A) (i : Z) : outcome A :=
  let n := Z.of_nat (length l) in
  if (0 <=? i) && (i <? n) then
    match nth_error l (Z.to_nat i) with Some a => Ok a | None => Raise IndexError end
  else if (- n <=? i) && (i <? 0) then
    match nth_error l (Z.to_nat (n + i)) with Some a => Ok a | None => Raise IndexError end
  else Raise IndexError.

Section Compose.

(** The PIL operations are left abstract: [new_page w h] is
    [Image.new("RGB", (w, h), (255,255,255))]; [flatten im] is the copy,
    the paste of an RGBA/LA image onto white and the conversion to RGB;
    [resize im w h] is [im.resize((w, h), Image.LANCZOS)]; [paste page im
    x y] is the page after [page.paste(im, (x, y))].  Each may raise. *)
Variable image : Type.
Variable new_page : Z -> Z -> outcome image.
Variable flatten : image -> outcome image.
Variable resize : image -> Z -> Z -> outcome image.
Variable paste : image -> image -> Z -> Z -> outcome image.

Fixpoint compose_placements (pil_images : list image) (page : image) (placements : list placement)
  : outcome image :=
  match placements with
  | [] => Ok page
  | (idx, x, y, w, h) :: rest =>
      im <- py_list_get pil_images idx ;;
      flat <- flatten im ;;
      resized <- resize flat w h ;;
      page' <- paste page resized x y ;;
      compose_placements pil_images page' rest
  end.

Fixpoint compose_pages (pil_images : list image) (pages_placement : list (list placement))
  (page_px : Z * Z) : outcome (list image) :=
  match pages_placement with
  | [] => Ok []
  | placements :: rest =>
      page <- new_page (fst page_px) (snd page_px) ;;
      page' <- compose_placements pil_images page placements ;;
      composed <- compose_pages pil_images rest page_px ;;
      Ok (page' :: composed)
  end.

End Compose.

(** ** sample_data_generation.py *)

(** [random.randint(a, b)]: [ValueError] for an empty range; otherwise
    the value [r] drawn by the generator. *)
Definition py_randint (a b r : Z) : outcome Z :=
  if Z.ltb b a then Raise ValueError else Ok r.

(** The box [[randint(0, w//4), randint(0, h//4), randint(w//2, w),
    randint(h//2, h)]] of a shape, from the draws [r0 .. r3]. *)
Definition sample_box (w h r0 r1 r2 r3 : Z) : outcome (Z * Z * Z * Z) :=
  x0 <- py_randint 0 (w / 4) r0 ;;
  y0 <- py_randint 0 (h / 4) r1 ;;
  x1 <- py_randint (w / 2) w r2 ;;
  y1 <- py_randint (h / 2) h r3 ;;
  Ok (x0, y0, x1, y1).

(** [os.path.join(output_dir, f"sample_{i+1}.png")] for [i] in
    [range(count)]. *)
Definition sample_base_name (i : Z) : string :=
  ("sample_" ++ py_str_int (i + 1) ++ ".png")%string.

Definition sample_file_name (output_dir : string) (i : Z) : string :=
  path_join output_dir (sample_base_name i).

Definition sample_file_names (output_dir : string) (count : nat) : list string :=
  map (fun i => sample_file_name output_dir (Z.of_nat i)) (seq 0 count).

(** ** Auxiliary definitions of the proofs *)

(** A finite non-negative float. *)
Definition fin_nonneg (f : spec_float) : Prop :=
  match f with
  | S754_zero false | S754_finite false _ _ => True
  | _ => False
  end.

(** A non-negative float, possibly [+inf]. *)
Definition nonneg_float (f : spec_float) : Prop :=
  match f with
  | S754_zero false | S754_finite false _ _ | S754_infinity false => True
  | _ => False
  end.

(** Any exception raised is an [OverflowError]. *)
Definition only_overflow {A} (o : outcome A) : Prop :=
  forall e, o = Raise e -> e = OverflowError.

(** Rectangles [p] and [q] are separated along the x or the y axis, so
    their open interiors do not meet. *)
Definition sep (p q : placement) : Prop :=
  pl_x p + pl_w p <= pl_x q \/ pl_x q + pl_w q <= pl_x p \/
  pl_y p + pl_h p <= pl_y q \/ pl_y q + pl_h q <= pl_y p.

Definition pos_size (s : size) : Prop := 0 < sz_w s /\ 0 < sz_h s.

(** [sublist l1 l2]: [l1] is [l2] with some elements left out. *)
Inductive sublist {A : Type} : list A -> list A -> Prop :=
| sublist_nil : sublist [] []
| sublist_skip x l1 l2 : sublist l1 l2 -> sublist l1 (x :: l2)
| sublist_cons x l1 l2 : sublist l1 l2 -> sublist (x :: l1) (x :: l2).

(** [dom N O]: the shelf heights [O] are bounded, one by one, by a
    subsequence of the shelf heights [N]; all heights are non-negative. *)
Inductive dom : list Z -> list Z -> Prop :=
| dom_nil : dom [] []
| dom_both n o N O : 0 <= o <= n -> dom N O -> dom (n :: N) (o :: O)
| dom_skip n N O : 0 <= n -> dom N O -> dom (n :: N) O.

Definition h_desc (a b : size) : Prop := sz_h b <= sz_h a.

(** The size entry a placement keeps of its image: [(w, h, idx)]. *)
Definition size_of (p : placement) : size := (pl_w p, pl_h p, pl_idx p).

(** [p] comes before [q] in reading order: on a higher shelf, or on the
    same shelf further left. *)
Definition reading_before (p q : placement) : Prop :=
  pl_y p < pl_y q \/ (pl_y p = pl_y q /\ pl_x p < pl_x q).

(** An image that fits on an empty shelf and has a positive height. *)
Definition fits_width (page_w_px padding : Z) (s : size) : Prop :=
  0 < sz_h s /\ sz_w s + 2 * padding <= page_w_px.

(** A finite float or a zero (neither infinite nor NaN). *)
Definition finite_sf (f : spec_float) : Prop :=
  match f with
  | S754_zero _ | S754_finite _ _ _ => True
  | _ => False
  end.

(** The exact rational [a / b] (for [b > 0]) rounded to the nearest
    integer, ties to even. *)
Definition round_div_half_even (a b : Z) : Z :=
  let q := a / b in
  match Z.compare (2 * (a mod b)) b with
  | Lt => q
  | Gt => q + 1
  | Eq => if Z.even q then q else q + 1
  end.

(** The bytes of a decimal digit [0 <= d <= 9]. *)
Definition digit_char (d : Z) : ascii := ascii_of_nat (48 + Z.to_nat d).

(** The directory part [os.path.join(folder, f)] puts before a name
    [f] that does not start with "/". *)
Definition join_prefix (folder : string) : string :=
  if String.eqb folder "" || str_endswith folder "/" then folder else (folder ++ "/")%string.

(** The three digits of [0 <= i <= 999]. *)
Definition three_digits (i : Z) : string :=
  String (digit_char (i / 100)) (String (digit_char ((i / 10) mod 10))
    (String (digit_char (i mod 10)) EmptyString)).

(** The page size in pixels as exact arithmetic: the inch size times
    the dpi, rounded to the nearest integer, ties to even. *)
Definition page_px_exact (page : string) (dpi : Z) : Z * Z :=
  if String.eqb (str_upper page) "LETTER" then (round_div_half_even (85 * dpi) 10, 11 * dpi)
  else (round_div_half_even (827 * dpi) 100, round_div_half_even (1169 * dpi) 100).

Definition outcome_pair_eqb (o : outcome (Z * Z)) (v : Z * Z) : bool :=
  match o with
  | Ok (a, b) => Z.eqb a (fst v) && Z.eqb b (snd v)
  | _ => false
  end.

(** A float that is zero, or finite, positive and at most [2^K], with a
    mantissa of at most 53 bits and an exponent in range. *)
Definition fin_below (K : Z) (f : spec_float) : Prop :=
  match f with
  | S754_zero _ => True
  | S754_finite false m e => Z.pos m <= 2 ^ (K - e) /\ Z.pos m < 2 ^ 53 /\ e <= 971
  | _ => False
  end.

(** A float that is zero, or finite, positive and at most [1.0]. *)
Definition scale_le_one (f : spec_float) : Prop :=
  match f with
  | S754_zero _ => True
  | S754_finite false m e => e <= -52 /\ Z.pos m <= 2 ^ (- e)
  | _ => False
  end.

Section Aux.

Variables page_w_px page_h_px padding : Z.

(** A placement within the horizontal usable band. *)
Definition horiz_ok (p : placement) : Prop :=
  padding <= pl_x p /\ pl_x p + pl_w p <= page_w_px - padding.

(** A placement made by the fallback branch: at [x = padding], for an
    input image wider than the usable width. *)
Definition is_fallback (L : list size) (p : placement) : Prop :=
  pl_x p = padding /\
  exists w0 h0, In (w0, h0, pl_idx p) L /\ page_w_px - 2 * padding < w0.

(** The images [l] all pass the fit test of the inner loop, starting
    from [shelf_x = x]. *)
Fixpoint fits (x : Z) (l : list size) : Prop :=
  match l with
  | [] => True
  | (w, _, _) :: l' => w + x + padding <= page_w_px /\ fits (x + (w + padding)) l'
  end.

(** [shelves rest T]: the shelf steps, run one after the other on
    [rest] until no image remains, have the heights [T].  The heights do
    not depend on the [y] of a shelf. *)
Inductive shelves : list size -> list Z -> Prop :=
| shelves_nil : shelves [] []
| shelves_step y rest ps sh rest' T :
    rest <> [] -> shelf_step page_w_px padding y rest = Ok (ps, sh, rest') -> shelves rest' T ->
    shelves rest (sh :: T).

(** The page bookkeeping of the middle loop, on shelf heights: a state
    is (pages so far, [y] of the next shelf).  A shelf starting at
    [y >= page_h_px - padding] opens a new page. *)
Definition pg_step (st : nat * Z) (t : Z) : nat * Z :=
  let '(c, y) := st in
  if Z.ltb y (page_h_px - padding) then (c, y + t + padding)
  else (S c, padding + t + padding).

Definition st_le (a b : nat * Z) : Prop :=
  (fst a < fst b)%nat \/ (fst a = fst b /\ snd a <= snd b).

Definition valid (st : nat * Z) : Prop := padding <= snd st.

End Aux.

(** ** Sign facts about the binary64 operations used by the program *)

Section FloatSigns.

Lemma shr_1_nonneg mrs : 0 <= shr_m mrs -> 0 <= shr_m (shr_1 mrs).
Proof.
  destruct mrs as [m r s]; simpl.
  destruct m as [|[p|p|]|[p|p|]]; simpl; lia.
Qed.

Lemma iter_shr_1_nonneg p : forall mrs,
  0 <= shr_m mrs -> 0 <= shr_m (iter_pos shr_1 p mrs).
Proof.
  induction p as [p IH|p IH|]; intros mrs H; simpl;
    auto using shr_1_nonneg.
Qed.

Lemma shr_fexp_nonneg m e l :
  0 <= m -> 0 <= shr_m (fst (shr_fexp prec emax m e l)).
Proof.
  intros Hm. unfold shr_fexp, shr.
  destruct (_ - e) as [|p|p]; simpl;
    [| apply iter_shr_1_nonneg |];
    destruct l as [|[| |]]; simpl; exact Hm.
Qed.

Lemma round_nearest_even_nonneg mx lx :
  0 <= mx -> 0 <= round_nearest_even mx lx.
Proof.
  intros H; destruct lx as [|[| |]]; simpl; try destruct (Z.even mx); lia.
Qed.

Lemma binary_round_aux_nonneg mx ex lx :
  0 <= mx -> nonneg_float (binary_round_aux prec emax false mx ex lx).
Proof.
  intros Hm. unfold binary_round_aux.
  destruct (shr_fexp prec emax mx ex lx) as [mrs' e'] eqn:E1.
  pose proof (shr_fexp_nonneg mx ex lx Hm) as H1. rewrite E1 in H1; simpl in H1.
  destruct (shr_fexp prec emax (round_nearest_even (shr_m mrs') (loc_of_shr_record mrs'))
                      e' loc_Exact) as [mrs'' e''] eqn:E2.
  pose proof (shr_fexp_nonneg _ e' loc_Exact (round_nearest_even_nonneg _
                 (loc_of_shr_record mrs') H1)) as H2.
  rewrite E2 in H2; simpl in H2.
  destruct (shr_m mrs'') as [|m|m]; simpl; [exact I| |lia].
  destruct (e'' <=? _); exact I.
Qed.

Lemma SFmul_nonneg a b :
  fin_nonneg a -> fin_nonneg b -> nonneg_float (SFmul prec emax a b).
Proof.
  destruct a as [[]|[]| |[] ma ea]; destruct b as [[]|[]| |[] mb eb];
    simpl; try contradiction; intros; try exact I.
  apply binary_round_aux_nonneg; lia.
Qed.

Lemma no_inf_fin f g :
  nonneg_float g ->
  match g with
  | S754_zero s => Ok (S754_zero s)
  | S754_infinity _ => Raise OverflowError
  | S754_nan => Ok S754_nan
  | S754_finite s m e => Ok (S754_finite s m e)
  end = Ok f ->
  fin_nonneg f.
Proof.
  destruct g as [[]|[]| |[] m e]; simpl; intros H E;
    try contradiction; try discriminate; injection E as <-; exact I.
Qed.

Lemma float_of_int_nonneg z f :
  0 <= z -> float_of_int z = Ok f -> fin_nonneg f.
Proof.
  intros Hz E. unfold float_of_int in E.
  apply (no_inf_fin f (binary_normalize prec emax z 0 false)); [|exact E].
  destruct z as [|m|m]; simpl; [exact I | | lia].
  unfold binary_round.
  destruct (shl_align _ _ _) as [mz ez].
  apply binary_round_aux_nonneg; lia.
Qed.

Lemma SFdiv_core_nonneg m1 e1 m2 e2 mz ez lz :
  0 < m1 -> 0 < m2 ->
  SFdiv_core_binary prec emax m1 e1 m2 e2 = (mz, ez, lz) -> 0 <= mz.
Proof.
  intros H1 H2 E. unfold SFdiv_core_binary in E.
  set (s := _ - _ - _) in E.
  assert (Hm : 0 <= match s with Zpos _ => Z.shiftl m1 s | Z0 => m1 | Zneg _ => 0 end).
  { destruct s; [lia | apply Z.shiftl_nonneg; lia | lia]. }
  revert E Hm.
  generalize (match s with Zpos _ => Z.shiftl m1 s | Z0 => m1 | Zneg _ => 0 end).
  intros m' E Hm.
  destruct (Z.div_eucl m' m2) as [q r] eqn:D.
  injection E as <- _ _.
  assert (q = m' / m2) by (unfold Z.div; rewrite D; reflexivity).
  subst q. apply Z.div_pos; lia.
Qed.

Lemma py_int_truediv_nonneg a b f :
  0 <= a -> 0 < b -> py_int_truediv a b = Ok f -> fin_nonneg f.
Proof.
  intros Ha Hb E. unfold py_int_truediv in E.
  replace (b =? 0) with false in E by (symmetry; apply Z.eqb_neq; lia).
  replace (a <? 0) with false in E by (symmetry; apply Z.ltb_ge; lia).
  replace (b <? 0) with false in E by (symmetry; apply Z.ltb_ge; lia).
  simpl in E.
  destruct (Z.abs a) as [|ma|ma] eqn:Ea.
  - injection E as <-; exact I.
  - refine (no_inf_fin f _ _ E). unfold SFdiv.
    destruct (SFdiv_core_binary prec emax (Z.pos ma) 0 (Z.pos (Z.to_pos (Z.abs b))) 0)
      as [[mz ez] lz] eqn:D.
    apply binary_round_aux_nonneg.
    apply (SFdiv_core_nonneg _ _ _ _ _ _ _ (eq_refl _ : 0 < Z.pos ma)
             (Pos2Z.is_pos _) D).
  - injection E as <-; exact I.
Qed.

Lemma py_int_mul_float_nonneg a g f :
  0 <= a -> fin_nonneg g -> py_int_mul_float a g = Ok f -> nonneg_float f.
Proof.
  unfold py_int_mul_float. intros Ha Hg E.
  destruct (float_of_int a) as [fa| |] eqn:Fa; simpl in E; try discriminate.
  injection E as <-.
  apply SFmul_nonneg; [exact (float_of_int_nonneg a fa Ha Fa) | exact Hg].
Qed.

Lemma py_round_nonneg f v :
  nonneg_float f -> py_round f = Ok v -> 0 <= v.
Proof.
  destruct f as [[]|[]| |[] m e]; simpl; intros H E;
    try contradiction; try discriminate; injection E as <-; [lia|].
  destruct e as [|e|d].
  - simpl; lia.
  - apply Z.shiftl_nonneg; lia.
  - unfold round_half_even_shift.
    assert (0 <= Z.shiftr (Z.pos m) (Z.pos d)) by (apply Z.shiftr_nonneg; lia).
    destruct (Z.compare _ _); try destruct (Z.even _); lia.
Qed.

End FloatSigns.

(** ** Bookkeeping: ids, progress, fuel *)

Section PackFacts.

Variables page_w_px page_h_px padding : Z.

Local Abbreviation fill_shelf := (fill_shelf page_w_px padding).
Local Abbreviation fallback := (fallback page_w_px padding).
Local Abbreviation shelf_step := (shelf_step page_w_px padding).
Local Abbreviation fill_page := (fill_page page_w_px page_h_px padding).
Local Abbreviation fill_one_page := (fill_one_page page_w_px page_h_px padding).
Local Abbreviation pack_loop := (pack_loop page_w_px page_h_px padding).
Local Abbreviation horiz_ok := (horiz_ok page_w_px padding).
Local Abbreviation is_fallback := (is_fallback page_w_px padding).

Lemma bind_ok {A B} (m : outcome A) (k : A -> outcome B) b :
  bind m k = Ok b -> exists a, m = Ok a /\ k a = Ok b.
Proof. destruct m; simpl; intros E; try discriminate; eauto. Qed.

Lemma fill_shelf_ids y sx sh rest ps sx' sh' r :
  fill_shelf y sx sh rest = (ps, sx', sh', r) ->
  map pl_idx ps ++ map sz_idx r = map sz_idx rest.
Proof.
  revert sx sh ps sx' sh' r.
  induction rest as [|[[w h] idx] rest IH]; simpl; intros sx sh ps sx' sh' r E.
  - injection E as <- <- <- <-; reflexivity.
  - destruct (w + sx + padding <=? page_w_px).
    + destruct (fill_shelf y _ _ rest) as [[[ps0 sx0] sh0] r0] eqn:E0.
      injection E as <- <- <- <-. simpl. f_equal. eapply IH; eauto.
    + injection E as <- <- <- <-; reflexivity.
Qed.

Lemma fill_shelf_length y sx sh rest ps sx' sh' r :
  fill_shelf y sx sh rest = (ps, sx', sh', r) ->
  (length ps + length r = length rest)%nat.
Proof.
  intros E. apply fill_shelf_ids in E.
  apply (f_equal (@length Z)) in E.
  rewrite length_app, !length_map in E. exact E.
Qed.

(** The shelf height only changes when an image is placed. *)
Lemma fill_shelf_height_unchanged y sx sh rest sx' sh' r :
  fill_shelf y sx sh rest = ([], sx', sh', r) ->
  sh' = sh /\ r = rest /\ sx' = sx /\
  (forall s r0, rest = s :: r0 -> page_w_px < sz_w s + sx + padding).
Proof.
  destruct rest as [|[[w h] idx] rest]; simpl; intros E.
  - injection E as <- <- <-; repeat split; auto; discriminate.
  - destruct (w + sx + padding <=? page_w_px) eqn:Fit.
    + destruct (fill_shelf y _ _ rest) as [[[ps0 sx0] sh0] r0]; discriminate.
    + injection E as <- <- <-; repeat split; auto.
      intros s r0 Es. injection Es as <- _. simpl. apply Z.leb_gt in Fit. lia.
Qed.

Lemma fallback_ids y rest p nh rest' :
  fallback y rest = Ok (p, nh, rest') ->
  pl_idx p :: map sz_idx rest' = map sz_idx rest.
Proof.
  destruct rest as [|[[w h] idx] rest]; simpl; intros E; [discriminate|].
  destruct (_ <=? 0); [discriminate|].
  repeat (apply bind_ok in E; destruct E as [? [_ E]]).
  injection E as <- _ <-. reflexivity.
Qed.

Lemma shelf_step_ids y rest ps sh rest' :
  shelf_step y rest = Ok (ps, sh, rest') ->
  map pl_idx ps ++ map sz_idx rest' = map sz_idx rest.
Proof.
  unfold shelf_step.
  destruct (fill_shelf y padding 0 rest) as [[[ps0 sx0] sh0] r0] eqn:E0.
  pose proof (fill_shelf_ids _ _ _ _ _ _ _ _ E0) as I0.
  destruct (sh0 =? 0); intros E.
  - apply bind_ok in E as [[[p nh] r2] [F E]]. injection E as <- <- <-.
    apply fallback_ids in F. rewrite map_app, <- app_assoc. simpl.
    rewrite F. exact I0.
  - injection E as <- <- <-. exact I0.
Qed.

(** Every shelf that does not raise places at least one image, and
    consumes exactly the images it places. *)
Lemma shelf_step_progress y rest ps sh rest' :
  shelf_step y rest = Ok (ps, sh, rest') ->
  (1 <= length ps)%nat /\ (length ps + length rest' = length rest)%nat.
Proof.
  intros E. split.
  - revert E. unfold shelf_step.
    destruct (fill_shelf y padding 0 rest) as [[[ps0 sx0] sh0] r0] eqn:E0.
    destruct (sh0 =? 0) eqn:Z0; intros E.
    + apply bind_ok in E as [[[p nh] r2] [F E]]. injection E as <- _ _.
      rewrite length_app; simpl; lia.
    + injection E as <- _ _. destruct ps0; [|simpl; lia].
      apply fill_shelf_height_unchanged in E0 as [-> _]. discriminate.
  - apply shelf_step_ids in E.
    apply (f_equal (@length Z)) in E.
    rewrite length_app, !length_map in E. exact E.
Qed.

Lemma fill_page_ids fuel y rest ps rest' :
  fill_page fuel y rest = Ok (ps, rest') ->
  map pl_idx ps ++ map sz_idx rest' = map sz_idx rest.
Proof.
  revert y rest ps rest'.
  induction fuel as [|fuel IH]; simpl; intros y rest ps rest' E.
  - injection E as <- <-; reflexivity.
  - destruct (_ && _); [|injection E as <- <-; reflexivity].
    apply bind_ok in E as [[[ps1 sh] r1] [S1 E]].
    apply shelf_step_ids in S1.
    destruct (_ && _).
    + injection E as <- <-. exact S1.
    + apply bind_ok in E as [[ps2 r2] [F2 E]]. injection E as <- <-.
      apply IH in F2. rewrite map_app, <- app_assoc, F2. exact S1.
Qed.

Lemma fill_page_length fuel y rest ps rest' :
  fill_page fuel y rest = Ok (ps, rest') -> (length rest' <= length rest)%nat.
Proof.
  intros E. apply fill_page_ids in E.
  apply (f_equal (@length Z)) in E.
  rewrite length_app, !length_map in E. lia.
Qed.

(** A page whose first shelf starts inside the usable height consumes
    at least one image (or raises). *)
Lemma fill_page_progress fuel y rest ps rest' :
  (0 < fuel)%nat -> y < page_h_px - padding -> rest <> [] ->
  fill_page fuel y rest = Ok (ps, rest') -> (length rest' < length rest)%nat.
Proof.
  destruct fuel as [|fuel]; [lia|]. intros _ Hy Hr. simpl.
  replace (y <? page_h_px - padding) with true by (symmetry; apply Z.ltb_lt; exact Hy).
  destruct rest as [|s rest]; [congruence|]. simpl. intros E.
  apply bind_ok in E as [[[ps1 sh] r1] [S1 E]].
  apply shelf_step_progress in S1 as [S1a S1b]. simpl in S1b.
  destruct (_ && _).
  - injection E as <- <-. lia.
  - apply bind_ok in E as [[ps2 r2] [F2 E]]. injection E as <- <-.
    apply fill_page_length in F2. lia.
Qed.

Lemma bind_not_diverge {A B} (m : outcome A) (k : A -> outcome B) :
  m <> Diverge -> (forall a, k a <> Diverge) -> bind m k <> Diverge.
Proof. destruct m; simpl; auto; discriminate. Qed.

Lemma fallback_not_diverge y rest : fallback y rest <> Diverge.
Proof.
  destruct rest as [|[[w h] idx] rest]; simpl; [discriminate|].
  destruct (_ <=? 0); [discriminate|].
  assert (Hd : forall a b, py_int_truediv a b <> Diverge).
  { intros a b. unfold py_int_truediv. destruct (b =? 0); [discriminate|].
    destruct (Z.abs a); [discriminate| |discriminate].
    destruct (SFdiv _ _ _ _); discriminate. }
  assert (Hm : forall a f, py_int_mul_float a f <> Diverge).
  { intros a f. unfold py_int_mul_float, float_of_int.
    destruct (binary_normalize _ _ _ _ _); discriminate. }
  assert (Hr : forall f, py_round f <> Diverge) by (intros []; discriminate).
  repeat (apply bind_not_diverge; [auto|intros ?]). discriminate.
Qed.

Lemma shelf_step_not_diverge y rest : shelf_step y rest <> Diverge.
Proof.
  unfold shelf_step. destruct (fill_shelf y padding 0 rest) as [[[ps0 sx0] sh0] r0].
  destruct (sh0 =? 0); [|discriminate].
  apply bind_not_diverge; [apply fallback_not_diverge|].
  intros [[p nh] r2]; discriminate.
Qed.

Lemma fill_page_not_diverge fuel y rest : fill_page fuel y rest <> Diverge.
Proof.
  revert y rest. induction fuel as [|fuel IH]; simpl; intros y rest; [discriminate|].
  destruct (_ && _); [|discriminate].
  apply bind_not_diverge; [apply shelf_step_not_diverge|].
  intros [[ps sh] r1]. destruct (_ && _); [discriminate|].
  apply bind_not_diverge; [apply IH|]. intros [ps2 r2]; discriminate.
Qed.

(** The fuel of [fill_page] is not a limit: any two amounts larger than
    the number of remaining images give the same run. *)
Lemma fill_page_fuel f1 f2 y rest :
  (length rest < f1)%nat -> (length rest < f2)%nat ->
  fill_page f1 y rest = fill_page f2 y rest.
Proof.
  revert f2 y rest. induction f1 as [|f1 IH]; intros f2 y rest H1 H2; [lia|].
  destruct f2 as [|f2]; [lia|]. simpl.
  destruct (Z.ltb y (page_h_px - padding) && _); [|reflexivity].
  destruct (shelf_step y rest) as [[[ps sh] r1]| |] eqn:S1; simpl; try reflexivity.
  apply shelf_step_progress in S1 as [S1a S1b].
  destruct (Z.geb (y + sh + padding) (page_h_px - padding) && _); [reflexivity|].
  rewrite (IH f2); [reflexivity | lia | lia].
Qed.

Lemma pack_loop_ids fuel rest pages :
  pack_loop fuel rest = Ok pages ->
  flat_map (map pl_idx) pages = map sz_idx rest.
Proof.
  revert rest pages. induction fuel as [|fuel IH]; intros rest pages E.
  - destruct rest; simpl in E; [injection E as <-; reflexivity | discriminate].
  - destruct rest as [|s rest0]; simpl in E; [injection E as <-; reflexivity|].
    apply bind_ok in E as [[pl r1] [F E]].
    destruct (Nat.eqb _ _); [discriminate|].
    apply bind_ok in E as [pages1 [P E]]. injection E as <-.
    simpl. rewrite (IH _ _ P). unfold fill_one_page in F.
    apply fill_page_ids in F. rewrite F. reflexivity.
Qed.

(** Termination of the page loop: when [2 * padding < page_h_px] every
    page consumes an image, so the loop returns or raises. *)
Lemma pack_loop_terminates fuel rest :
  2 * padding < page_h_px -> (length rest < fuel)%nat ->
  pack_loop fuel rest <> Diverge.
Proof.
  intros Hh. revert rest. induction fuel as [|fuel IH]; intros rest Hf; [lia|].
  destruct rest as [|s rest0]; simpl; [discriminate|].
  destruct (fill_one_page (s :: rest0)) as [[pl r1]| |] eqn:F; simpl; try discriminate.
  - pose proof F as F'. unfold fill_one_page in F'.
    apply fill_page_progress in F'; [|simpl; lia|lia|discriminate].
    simpl length in F' |- *.
    replace (Nat.eqb (length r1) (S (length rest0))) with false
      by (symmetry; apply Nat.eqb_neq; lia).
    specialize (IH r1 ltac:(simpl in *; lia)).
    destruct (pack_loop fuel r1); simpl; congruence.
  - unfold fill_one_page in F. exfalso; exact (fill_page_not_diverge _ _ _ F).
Qed.

(** *** Geometry *)

Lemma fill_shelf_suffix y sx sh rest ps sx' sh' r :
  fill_shelf y sx sh rest = (ps, sx', sh', r) -> exists pre, rest = pre ++ r.
Proof.
  revert sx sh ps sx' sh' r.
  induction rest as [|[[w h] idx] rest IH]; simpl; intros sx sh ps sx' sh' r E.
  - injection E as <- <- <- <-. exists []; reflexivity.
  - destruct (w + sx + padding <=? page_w_px).
    + destruct (fill_shelf y _ _ rest) as [[[ps0 sx0] sh0] r0] eqn:E0.
      injection E as <- <- <- <-. destruct (IH _ _ _ _ _ _ E0) as [pre ->].
      exists ((w, h, idx) :: pre); reflexivity.
    + injection E as <- <- <- <-. exists []; reflexivity.
Qed.

Lemma shelf_step_suffix y rest ps sh rest' :
  shelf_step y rest = Ok (ps, sh, rest') -> exists pre, rest = pre ++ rest'.
Proof.
  unfold shelf_step.
  destruct (fill_shelf y padding 0 rest) as [[[ps0 sx0] sh0] r0] eqn:E0.
  destruct (fill_shelf_suffix _ _ _ _ _ _ _ _ E0) as [pre ->].
  destruct (sh0 =? 0); intros E.
  - apply bind_ok in E as [[[p nh] r2] [F E]]. injection E as <- <- <-.
    destruct r0 as [|s r0]; [discriminate|]. simpl in F.
    destruct s as [[w h] idx]. destruct (_ <=? 0); [discriminate|].
    repeat (apply bind_ok in F; destruct F as [? [_ F]]).
    injection F as _ _ <-. exists (pre ++ [(w, h, idx)]).
    rewrite <- app_assoc; reflexivity.
  - injection E as <- <- <-. exists pre; reflexivity.
Qed.

Lemma fill_page_suffix fuel y rest ps rest' :
  fill_page fuel y rest = Ok (ps, rest') -> exists pre, rest = pre ++ rest'.
Proof.
  revert y rest ps rest'.
  induction fuel as [|fuel IH]; simpl; intros y rest ps rest' E.
  - injection E as <- <-. exists []; reflexivity.
  - destruct (_ && _); [|injection E as <- <-; exists []; reflexivity].
    apply bind_ok in E as [[[ps1 sh] r1] [S1 E]].
    destruct (shelf_step_suffix _ _ _ _ _ S1) as [pre1 ->].
    destruct (_ && _).
    + injection E as <- <-. exists pre1; reflexivity.
    + apply bind_ok in E as [[ps2 r2] [F2 E]]. injection E as <- <-.
      destruct (IH _ _ _ _ F2) as [pre2 ->].
      exists (pre1 ++ pre2). rewrite app_assoc; reflexivity.
Qed.

Lemma ForallOrdPairs_app {A} (R : A -> A -> Prop) l1 l2 :
  ForallOrdPairs R l1 -> ForallOrdPairs R l2 ->
  (forall a b, In a l1 -> In b l2 -> R a b) -> ForallOrdPairs R (l1 ++ l2).
Proof.
  induction l1 as [|a l1 IH]; simpl; intros H1 H2 H; [exact H2|].
  inversion H1 as [|? ? Ha H1']; subst. constructor.
  - apply Forall_app; split; [exact Ha|]. apply Forall_forall; auto.
  - apply IH; auto.
Qed.

Lemma ForallOrdPairs_impl {A} (R S : A -> A -> Prop) l :
  (forall a b, In a l -> R a b -> S a b) -> ForallOrdPairs R l -> ForallOrdPairs S l.
Proof.
  induction l as [|a l IH]; intros H Hl; [constructor|].
  inversion Hl as [|? ? Ha Hl']; subst. constructor.
  - eapply Forall_impl; [|exact Ha]. intros b; apply H; left; reflexivity.
  - apply IH; [|exact Hl']. intros x y Hx; apply H; right; exact Hx.
Qed.

Lemma fill_shelf_heights y sx sh rest ps sx' sh' r :
  fill_shelf y sx sh rest = (ps, sx', sh', r) ->
  sh <= sh' /\ Forall (fun p => pl_h p <= sh' /\ In (pl_w p, pl_h p, pl_idx p) rest) ps.
Proof.
  revert sx sh ps sx' sh' r.
  induction rest as [|[[w h] idx] rest IH]; simpl; intros sx sh ps sx' sh' r E.
  - injection E as <- <- <- <-. split; [lia | constructor].
  - destruct (w + sx + padding <=? page_w_px).
    + destruct (fill_shelf y _ _ rest) as [[[ps0 sx0] sh0] r0] eqn:E0.
      injection E as <- <- <- <-.
      destruct (IH _ _ _ _ _ _ E0) as [Hs Hf].
      set (sh1 := if h >? sh then h else sh) in *.
      assert (sh <= sh1 /\ h <= sh1) by (unfold sh1; destruct (Z.gtb_spec h sh); lia).
      split; [lia|]. constructor; [simpl; split; [lia | left; reflexivity]|].
      eapply Forall_impl; [|exact Hf]. intros p [Hp1 Hp2]; split; [exact Hp1 | right; exact Hp2].
    + injection E as <- <- <- <-. split; [lia | constructor].
Qed.

Hypothesis padding_nonneg : 0 <= padding.

Lemma fill_shelf_geom y sx sh rest ps sx' sh' r :
  Forall pos_size rest ->
  fill_shelf y sx sh rest = (ps, sx', sh', r) ->
  sh <= sh' /\
  Forall (fun p => pl_y p = y /\ sx <= pl_x p /\
                   pl_x p + pl_w p + padding <= page_w_px /\
                   0 < pl_h p <= sh') ps /\
  ForallOrdPairs (fun p q => pl_x p + pl_w p <= pl_x q) ps.
Proof.
  revert sx sh ps sx' sh' r.
  induction rest as [|[[w h] idx] rest IH]; simpl; intros sx sh ps sx' sh' r Hp E.
  - injection E as <- <- <- <-. repeat split; [lia | constructor | constructor].
  - inversion Hp as [|? ? [Hw Hh] Hp']; subst; simpl in Hw, Hh.
    destruct (w + sx + padding <=? page_w_px) eqn:Fit.
    + apply Z.leb_le in Fit.
      destruct (fill_shelf y _ _ rest) as [[[ps0 sx0] sh0] r0] eqn:E0.
      injection E as <- <- <- <-.
      destruct (IH _ _ _ _ _ _ Hp' E0) as [Hs [Hf Ho]].
      set (sh1 := if h >? sh then h else sh) in *.
      assert (sh <= sh1 /\ h <= sh1) by (unfold sh1; destruct (Z.gtb_spec h sh); lia).
      repeat split; [lia| |].
      * constructor; [simpl; lia|].
        eapply Forall_impl; [|exact Hf]. simpl; intros p Hq; lia.
      * constructor; [|exact Ho].
        eapply Forall_impl; [|exact Hf]. simpl; intros p Hq; lia.
    + injection E as <- <- <- <-. repeat split; [lia | constructor | constructor].
Qed.

Lemma fallback_geom y w h idx r p nh r' :
  0 < w -> 0 <= h ->
  fallback y ((w, h, idx) :: r) = Ok (p, nh, r') ->
  0 <= nh /\ p = (idx, padding, y, pl_w p, nh) /\ r' = r.
Proof.
  intros Hw Hh E. unfold fallback in E.
  destruct (_ <=? 0) eqn:M; [discriminate|]. apply Z.leb_gt in M.
  apply bind_ok in E as [sc [Sc E]].
  apply bind_ok in E as [fw [Fw E]].
  apply bind_ok in E as [nw [Nw E]].
  apply bind_ok in E as [fh [Fh E]].
  apply bind_ok in E as [nh' [Nh E]].
  injection E as <- <- <-.
  pose proof (py_int_truediv_nonneg (page_w_px - 2 * padding) w sc ltac:(lia) Hw Sc) as H1.
  pose proof (py_int_mul_float_nonneg _ _ _ Hh H1 Fh) as H2.
  pose proof (py_round_nonneg _ _ H2 Nh). auto.
Qed.

Lemma shelf_step_geom y rest ps sh rest' :
  Forall pos_size rest -> padding <= y ->
  shelf_step y rest = Ok (ps, sh, rest') ->
  0 <= sh /\
  Forall (fun p => pl_y p = y /\ 0 <= pl_h p <= sh /\
                   (horiz_ok p \/ is_fallback rest p)) ps /\
  ForallOrdPairs sep ps.
Proof.
  intros Hp Hy. unfold shelf_step.
  destruct (fill_shelf y padding 0 rest) as [[[ps0 sx0] sh0] r0] eqn:E0.
  destruct (fill_shelf_geom _ _ _ _ _ _ _ _ Hp E0) as [Hs [Hf Ho]].
  destruct (sh0 =? 0) eqn:Z0; intros E.
  - apply Z.eqb_eq in Z0; subst sh0.
    apply bind_ok in E as [[[p nh] r2] [F E]]. injection E as <- <- <-.
    destruct ps0 as [|p0 ps0].
    2:{ inversion Hf as [|? ? Hp0]; lia. }
    apply fill_shelf_height_unchanged in E0 as [_ [-> [_ Hfit]]].
    destruct rest as [|[[w h] idx] rest]; [discriminate|].
    inversion Hp as [|? ? [Hw Hh] _]; simpl in Hw, Hh.
    specialize (Hfit _ _ eq_refl); simpl in Hfit.
    destruct (fallback_geom y w h idx _ _ _ _ Hw ltac:(lia) F) as [Hnh [Hpe _]].
    rewrite Hpe. simpl. repeat split; try lia.
    + constructor; [|constructor]. simpl. repeat split; try lia.
      right. split; [reflexivity|]. exists w, h. split; [left; reflexivity | lia].
    + repeat constructor.
  - injection E as <- <- <-. repeat split; [lia| |].
    + eapply Forall_impl; [|exact Hf]. intros p Hq; cbv beta in Hq.
      repeat split; try lia. left. unfold horiz_ok; lia.
    + eapply ForallOrdPairs_impl; [|exact Ho]. intros a b _; unfold sep; lia.
Qed.

Lemma is_fallback_incl L L' p : incl L L' -> is_fallback L p -> is_fallback L' p.
Proof.
  intros HL [Hx [w0 [h0 [Hin Hw]]]]. split; [exact Hx|].
  exists w0, h0; split; [apply HL; exact Hin | exact Hw].
Qed.

Lemma Forall_suffix {A} (P : A -> Prop) pre l :
  Forall P (pre ++ l) -> Forall P l.
Proof. intros H; apply Forall_app in H; tauto. Qed.

Lemma fill_page_geom fuel y rest ps rest' :
  Forall pos_size rest -> padding <= y ->
  fill_page fuel y rest = Ok (ps, rest') ->
  Forall (fun p => y <= pl_y p < page_h_px - padding /\ 0 <= pl_h p /\
                   (horiz_ok p \/ is_fallback rest p)) ps /\
  ForallOrdPairs sep ps.
Proof.
  revert y rest ps rest'.
  induction fuel as [|fuel IH]; simpl; intros y rest ps rest' Hp Hy E.
  - injection E as <- <-. split; constructor.
  - destruct (y <? page_h_px - padding) eqn:Cy; simpl in E;
      [|injection E as <- <-; split; constructor].
    apply Z.ltb_lt in Cy.
    destruct (negb _); [|injection E as <- <-; split; constructor].
    apply bind_ok in E as [[[ps1 sh] r1] [S1 E]].
    destruct (shelf_step_geom _ _ _ _ _ Hp Hy S1) as [Hsh [Hf1 Ho1]].
    destruct (shelf_step_suffix _ _ _ _ _ S1) as [pre1 Er1].
    assert (Hf1' : Forall (fun p => y <= pl_y p < page_h_px - padding /\ 0 <= pl_h p /\
                   (horiz_ok p \/ is_fallback rest p)) ps1).
    { eapply Forall_impl; [|exact Hf1]. intros p [Hq1 [Hq2 Hq3]].
      repeat split; try lia; exact Hq3. }
    destruct (_ && _).
    + injection E as <- <-. split; assumption.
    + apply bind_ok in E as [[ps2 r2] [F2 E]]. injection E as <- <-.
      assert (Hp1 : Forall pos_size r1) by (rewrite Er1 in Hp; exact (Forall_suffix _ _ _ Hp)).
      destruct (IH (y + sh + padding) r1 ps2 r2 Hp1 ltac:(lia) F2) as [Hf2 Ho2].
      split.
      * apply Forall_app; split; [exact Hf1'|].
        eapply Forall_impl; [|exact Hf2]. intros p Hq; cbv beta in Hq.
        destruct Hq as [Hq1 [Hq2 [Hq3 | Hq3]]]; repeat split; try lia; [left; exact Hq3|].
        right. eapply is_fallback_incl; [|exact Hq3].
        rewrite Er1. intros a Ha; apply in_or_app; right; exact Ha.
      * apply ForallOrdPairs_app; [exact Ho1 | exact Ho2 |].
        intros a b Ha Hb.
        rewrite Forall_forall in Hf1, Hf2.
        specialize (Hf1 a Ha); specialize (Hf2 b Hb).
        unfold sep; lia.
Qed.

Lemma pack_loop_geom fuel rest pages :
  Forall pos_size rest ->
  pack_loop fuel rest = Ok pages ->
  Forall (fun page =>
    Forall (fun p => padding <= pl_y p < page_h_px - padding /\ 0 <= pl_h p /\
                     (horiz_ok p \/ is_fallback rest p)) page /\
    ForallOrdPairs sep page) pages.
Proof.
  revert rest pages. induction fuel as [|fuel IH]; intros rest pages Hp E.
  - destruct rest; simpl in E; [injection E as <-; constructor | discriminate].
  - destruct rest as [|s rest0]; simpl in E; [injection E as <-; constructor|].
    apply bind_ok in E as [[pl r1] [F E]].
    destruct (Nat.eqb _ _); [discriminate|].
    apply bind_ok in E as [pages1 [P E]]. injection E as <-.
    unfold fill_one_page in F.
    destruct (fill_page_suffix _ _ _ _ _ F) as [pre Er1].
    destruct (fill_page_geom _ _ _ _ _ Hp (Z.le_refl _) F) as [Hf Ho].
    assert (Hp1 : Forall pos_size r1) by (rewrite Er1 in Hp; exact (Forall_suffix _ _ _ Hp)).
    constructor; [split; assumption|].
    eapply Forall_impl; [|exact (IH _ _ Hp1 P)].
    intros page [Hq Ho']; split; [|exact Ho'].
    eapply Forall_impl; [|exact Hq]. intros p Hr; cbv beta in Hr.
    destruct Hr as [Hr1 [Hr2 [Hr3 | Hr3]]]; repeat split; try lia; [left; exact Hr3|].
    right. eapply is_fallback_incl; [|exact Hr3].
    rewrite Er1. intros a Ha; apply in_or_app; right; exact Ha.
Qed.

End PackFacts.

(** *** Which exceptions can be raised on well-formed input *)

Section Raises.

Variables page_w_px page_h_px padding : Z.

Lemma only_overflow_bind {A B} (m : outcome A) (k : A -> outcome B) :
  only_overflow m -> (forall a, only_overflow (k a)) -> only_overflow (bind m k).
Proof.
  unfold only_overflow. destruct m as [a|e0|]; simpl; intros Hm Hk e E.
  - exact (Hk a e E).
  - injection E as ->. exact (Hm e eq_refl).
  - discriminate.
Qed.

Lemma only_overflow_ok {A} (a : A) : only_overflow (Ok a).
Proof. intros e E; discriminate. Qed.

Lemma py_int_truediv_only_overflow a b :
  b <> 0 -> only_overflow (py_int_truediv a b).
Proof.
  intros Hb e E. unfold py_int_truediv in E.
  replace (b =? 0) with false in E by (symmetry; apply Z.eqb_neq; exact Hb).
  destruct (Z.abs a); try discriminate.
  destruct (SFdiv _ _ _ _); congruence.
Qed.

Lemma py_int_mul_float_only_overflow a f : only_overflow (py_int_mul_float a f).
Proof.
  intros e E. unfold py_int_mul_float, float_of_int in E.
  destruct (binary_normalize _ _ _ _ _); simpl in E; congruence.
Qed.

Lemma py_round_only_overflow f : nonneg_float f -> only_overflow (py_round f).
Proof.
  intros Hf e E. destruct f as [[]|[]| |[] m ex]; simpl in *;
    try contradiction; try discriminate; congruence.
Qed.

Ltac raise_branch H lem :=
  let e' := fresh "e" in let E' := fresh "E" in
  intros e' E'; injection E' as <-; eapply lem; [..| exact H]; auto.

Lemma fallback_only_overflow y w h idx r :
  0 < w -> 0 <= h -> 0 < page_w_px - 2 * padding ->
  only_overflow (fallback page_w_px padding y ((w, h, idx) :: r)).
Proof.
  intros Hw Hh M. unfold fallback.
  replace (page_w_px - 2 * padding <=? 0) with false by (symmetry; apply Z.leb_gt; lia).
  destruct (py_int_truediv (page_w_px - 2 * padding) w) as [sc|e|] eqn:Sc; simpl;
    [| raise_branch Sc py_int_truediv_only_overflow; lia | intros e E; discriminate].
  pose proof (py_int_truediv_nonneg (page_w_px - 2 * padding) w sc ltac:(lia) Hw Sc) as Hsc.
  destruct (py_int_mul_float w sc) as [fw|e|] eqn:Fw; simpl;
    [| raise_branch Fw py_int_mul_float_only_overflow | intros e E; discriminate].
  pose proof (py_int_mul_float_nonneg w sc fw ltac:(lia) Hsc Fw) as Hfw.
  destruct (py_round fw) as [nw|e|] eqn:Nw; simpl;
    [| raise_branch Nw py_round_only_overflow | intros e E; discriminate].
  destruct (py_int_mul_float h sc) as [fh|e|] eqn:Fh; simpl;
    [| raise_branch Fh py_int_mul_float_only_overflow | intros e E; discriminate].
  pose proof (py_int_mul_float_nonneg _ _ _ Hh Hsc Fh) as Hfh.
  destruct (py_round fh) as [nh|e|] eqn:Nh; simpl;
    [apply only_overflow_ok
    | raise_branch Nh py_round_only_overflow | intros e E; discriminate].
Qed.

Lemma shelf_step_only_overflow y rest :
  Forall pos_size rest -> rest <> [] ->
  0 < page_w_px - 2 * padding ->
  only_overflow (shelf_step page_w_px padding y rest).
Proof.
  intros Hp Hr M. unfold shelf_step.
  destruct (fill_shelf page_w_px padding y padding 0 rest) as [[[ps0 sx0] sh0] r0] eqn:E0.
  destruct (sh0 =? 0) eqn:Z0; [|apply only_overflow_ok].
  apply Z.eqb_eq in Z0; subst sh0.
  apply only_overflow_bind; [|intros [[p nh] r2]; apply only_overflow_ok].
  destruct ps0 as [|p0 ps0].
  - apply fill_shelf_height_unchanged in E0 as [_ [-> _]].
    destruct rest as [|[[w h] idx] rest]; [congruence|].
    inversion Hp as [|? ? [Hw Hh] _]; simpl in Hw, Hh.
    apply fallback_only_overflow; lia.
  - exfalso. apply fill_shelf_heights in E0 as [_ Hf].
    inversion Hf as [|? ? [Hh0 Hin] _]; subst.
    rewrite Forall_forall in Hp. destruct (Hp _ Hin) as [_ Hpos]. simpl in Hpos. lia.
Qed.

Lemma fill_page_only_overflow fuel y rest :
  Forall pos_size rest -> 0 < page_w_px - 2 * padding ->
  only_overflow (fill_page page_w_px page_h_px padding fuel y rest).
Proof.
  revert y rest. induction fuel as [|fuel IH]; simpl; intros y rest Hp M;
    [apply only_overflow_ok|].
  destruct (y <? page_h_px - padding); simpl; [|apply only_overflow_ok].
  destruct rest as [|s rest0] eqn:Er; simpl; [apply only_overflow_ok|].
  rewrite <- Er in *.
  destruct (shelf_step page_w_px padding y rest) as [[[ps sh] r1]|e|] eqn:S1; simpl.
  - destruct (_ && _); [apply only_overflow_ok|].
    destruct (shelf_step_suffix _ _ _ _ _ _ _ S1) as [pre ->].
    apply only_overflow_bind; [|intros [ps2 r2]; apply only_overflow_ok].
    apply IH; [exact (Forall_suffix _ _ _ Hp) | exact M].
  - raise_branch S1 shelf_step_only_overflow; subst rest; discriminate.
  - intros e E; discriminate.
Qed.

Lemma pack_loop_only_overflow fuel rest :
  Forall pos_size rest -> 0 < page_w_px - 2 * padding ->
  only_overflow (pack_loop page_w_px page_h_px padding fuel rest).
Proof.
  revert rest. induction fuel as [|fuel IH]; intros rest Hp M.
  - destruct rest; simpl; [apply only_overflow_ok | intros e E; discriminate].
  - destruct rest as [|s rest0] eqn:Er; simpl; [apply only_overflow_ok|].
    rewrite <- Er in *.
    destruct (fill_one_page page_w_px page_h_px padding rest) as [[pl r1]|e|] eqn:F; simpl.
    + destruct (Nat.eqb _ _); [intros e E; discriminate|].
      unfold fill_one_page in F.
      destruct (fill_page_suffix _ _ _ _ _ _ _ _ F) as [pre ->].
      apply only_overflow_bind; [|intros pages; apply only_overflow_ok].
      apply IH; [exact (Forall_suffix _ _ _ Hp) | exact M].
    + unfold fill_one_page in F. raise_branch F fill_page_only_overflow.
    + intros e E; discriminate.
Qed.

End Raises.

(** ** Normalisation facts *)

Section Normalisation.

Lemma SFltb_trans_nonneg a b c :
  fin_nonneg a -> fin_nonneg b -> fin_nonneg c ->
  SFltb a b = true -> SFltb b c = true -> SFltb a c = true.
Proof.
  destruct a as [[]|[]| |[] ma ea]; try contradiction;
  destruct b as [[]|[]| |[] mb eb]; try contradiction;
  destruct c as [[]|[]| |[] mc ec]; try contradiction; intros _ _ _;
    unfold SFltb; simpl; try discriminate; try reflexivity.
  change (Pos.compare_cont Eq ma mb) with (Pos.compare ma mb).
  change (Pos.compare_cont Eq mb mc) with (Pos.compare mb mc).
  change (Pos.compare_cont Eq ma mc) with (Pos.compare ma mc).
  destruct (Z.compare_spec ea eb); destruct (Z.compare_spec eb ec);
  destruct (Z.compare_spec ea ec); try lia; try discriminate; try reflexivity;
  destruct (Pos.compare_spec ma mb); destruct (Pos.compare_spec mb mc);
  destruct (Pos.compare_spec ma mc); subst; try lia; try discriminate; reflexivity.
Qed.

Lemma SFleb_nonneg_cases a b :
  fin_nonneg a -> fin_nonneg b -> SFleb a b = true -> a = b \/ SFltb a b = true.
Proof.
  destruct a as [[]|[]| |[] ma ea]; try contradiction;
  destruct b as [[]|[]| |[] mb eb]; try contradiction; intros _ _;
    unfold SFleb, SFltb; simpl; try discriminate; auto.
  change (Pos.compare_cont Eq ma mb) with (Pos.compare ma mb).
  destruct (Z.compare_spec ea eb); try discriminate; auto.
  destruct (Pos.compare_spec ma mb); subst; auto; discriminate.
Qed.

Lemma SFltb_SFleb a b : SFltb a b = true -> SFleb a b = true.
Proof. unfold SFltb, SFleb. destruct (SFcompare a b) as [[]|]; congruence. Qed.

Lemma float_one_nonneg : fin_nonneg float_one.
Proof. vm_compute. exact I. Qed.

Lemma py_min2_le_nonneg cur x :
  fin_nonneg cur -> fin_nonneg x -> SFleb cur float_one = true ->
  fin_nonneg (py_min2 cur x) /\ SFleb (py_min2 cur x) float_one = true.
Proof.
  intros Hc Hx Hle. unfold py_min2.
  destruct (SFltb x cur) eqn:L; [|auto].
  split; [exact Hx|]. apply SFltb_SFleb.
  destruct (SFleb_nonneg_cases cur float_one Hc float_one_nonneg Hle) as [->|Lt]; [exact L|].
  exact (SFltb_trans_nonneg x cur float_one Hx Hc float_one_nonneg L Lt).
Qed.

Lemma norm_side_nonneg d m f :
  0 <= m -> (if Z.gtb d 0 then py_int_truediv m d else Ok float_one) = Ok f -> fin_nonneg f.
Proof.
  intros Hm E. destruct (Z.gtb_spec d 0) as [Hd|Hd].
  - exact (py_int_truediv_nonneg m d f Hm Hd E).
  - injection E as <-. exact float_one_nonneg.
Qed.

Lemma norm_scale_nonneg_le w h max_w max_h sc :
  0 <= max_w -> 0 <= max_h -> norm_scale w h max_w max_h = Ok sc ->
  fin_nonneg sc /\ SFleb sc float_one = true.
Proof.
  intros Hw Hh E. unfold norm_scale in E.
  destruct (if Z.gtb w 0 then py_int_truediv max_w w else Ok float_one) as [sw| |] eqn:Ew;
    simpl in E; try discriminate.
  destruct (if Z.gtb h 0 then py_int_truediv max_h h else Ok float_one) as [sh| |] eqn:Eh;
    simpl in E; try discriminate.
  injection E as <-.
  pose proof (norm_side_nonneg w max_w sw Hw Ew) as Hsw.
  pose proof (norm_side_nonneg h max_h sh Hh Eh) as Hsh.
  destruct (py_min2_le_nonneg float_one sw float_one_nonneg Hsw ltac:(vm_compute; reflexivity))
    as [H1 H2].
  exact (py_min2_le_nonneg _ sh H1 Hsh H2).
Qed.

Lemma normalize_size_nonneg w h max_w max_h w2 h2 :
  0 <= w -> 0 <= h -> 0 <= max_w -> 0 <= max_h ->
  normalize_size w h max_w max_h = Ok (w2, h2) -> 0 <= w2 /\ 0 <= h2.
Proof.
  intros Hw Hh Hmw Hmh E. unfold normalize_size in E.
  destruct (norm_scale w h max_w max_h) as [sc| |] eqn:Es; simpl in E; try discriminate.
  destruct (norm_scale_nonneg_le _ _ _ _ _ Hmw Hmh Es) as [Hsc _].
  destruct (py_int_mul_float w sc) as [fw| |] eqn:Fw; simpl in E; try discriminate.
  destruct (py_round fw) as [v| |] eqn:Rw; simpl in E; try discriminate.
  destruct (py_int_mul_float h sc) as [fh| |] eqn:Fh; simpl in E; try discriminate.
  destruct (py_round fh) as [u| |] eqn:Rh; simpl in E; try discriminate.
  injection E as <- <-. split.
  - exact (py_round_nonneg fw v (py_int_mul_float_nonneg w sc fw Hw Hsc Fw) Rw).
  - exact (py_round_nonneg fh u (py_int_mul_float_nonneg h sc fh Hh Hsc Fh) Rh).
Qed.

Lemma only_overflow_bind_ok {A B} (m : outcome A) (k : A -> outcome B) :
  only_overflow m -> (forall a, m = Ok a -> only_overflow (k a)) -> only_overflow (bind m k).
Proof.
  unfold only_overflow. destruct m as [a|e0|]; simpl; intros Hm Hk e E.
  - exact (Hk a eq_refl e E).
  - injection E as ->. exact (Hm e eq_refl).
  - discriminate.
Qed.

Lemma norm_side_only_overflow d m :
  only_overflow (if Z.gtb d 0 then py_int_truediv m d else Ok float_one).
Proof.
  destruct (Z.gtb_spec d 0).
  - apply py_int_truediv_only_overflow. lia.
  - apply only_overflow_ok.
Qed.

Lemma normalize_size_only_overflow w h max_w max_h :
  0 <= w -> 0 <= h -> 0 <= max_w -> 0 <= max_h ->
  only_overflow (normalize_size w h max_w max_h).
Proof.
  intros Hw Hh Hmw Hmh. unfold normalize_size.
  apply only_overflow_bind_ok.
  { unfold norm_scale. apply only_overflow_bind; [apply norm_side_only_overflow|intros sw].
    apply only_overflow_bind; [apply norm_side_only_overflow|intros sh].
    apply only_overflow_ok. }
  intros sc Es. destruct (norm_scale_nonneg_le _ _ _ _ _ Hmw Hmh Es) as [Hsc _].
  apply only_overflow_bind_ok; [apply py_int_mul_float_only_overflow|intros fw Fw].
  apply only_overflow_bind;
    [exact (py_round_only_overflow fw (py_int_mul_float_nonneg w sc fw Hw Hsc Fw))|intros w2].
  apply only_overflow_bind_ok; [apply py_int_mul_float_only_overflow|intros fh Fh].
  apply only_overflow_bind;
    [exact (py_round_only_overflow fh (py_int_mul_float_nonneg h sc fh Hh Hsc Fh))|intros h2].
  apply only_overflow_ok.
Qed.

End Normalisation.

Section FloatRange.

Lemma digits2_pos_size p : digits2_pos p = Pos.size p.
Proof. induction p as [p IH|p IH|]; simpl; congruence. Qed.

Lemma pow2_lt_inv a b : 0 <= a -> 2 ^ a < 2 ^ b -> a < b.
Proof.
  intros Ha H. destruct (Z.lt_ge_cases a b) as [|Hba]; [assumption|].
  pose proof (Z.pow_le_mono_r 2 b a ltac:(lia) Hba). lia.
Qed.

Lemma pow2_le_inv a b : 0 <= a -> 2 ^ a <= 2 ^ b -> a <= b.
Proof.
  intros Ha H. destruct (Z.le_gt_cases a b) as [|Hba]; [assumption|].
  destruct (Z.lt_ge_cases b 0) as [Hb|Hb].
  - rewrite (Z.pow_neg_r 2 b Hb) in H. pose proof (Z.pow_pos_nonneg 2 a ltac:(lia) Ha). lia.
  - pose proof (Z.pow_lt_mono_r 2 b a ltac:(lia) Ha Hba). lia.
Qed.

Lemma Zdigits2_bounds m :
  0 < m -> 1 <= Zdigits2 m /\ 2 ^ (Zdigits2 m - 1) <= m < 2 ^ Zdigits2 m.
Proof.
  destruct m as [|p|p]; intros Hm; try lia. simpl Zdigits2. rewrite digits2_pos_size.
  pose proof (Pos.size_gt p) as G. pose proof (Pos.size_le p) as L.
  apply Pos2Z.pos_lt_pos in G. apply Pos2Z.pos_le_pos in L.
  rewrite Pos2Z.inj_xO in L. rewrite Pos2Z.inj_pow in G, L.
  assert (P : 2 ^ Z.pos (Pos.size p) = 2 * 2 ^ (Z.pos (Pos.size p) - 1)).
  { rewrite <- Z.pow_succ_r by lia. f_equal. lia. }
  lia.
Qed.

Lemma Zdigits2_pow_le m k : 0 <= k -> 0 <= m -> m <= 2 ^ k -> Zdigits2 m <= k + 1.
Proof.
  intros Hk H0 H. destruct (Z.eq_dec m 0) as [->|Hne]; [simpl; lia|].
  - destruct (Zdigits2_bounds m ltac:(lia)) as [D [B1 B2]].
    assert (Zdigits2 m - 1 <= k) by (apply pow2_le_inv; lia). lia.
Qed.

Lemma Zdigits2_pow_lt m k : 0 <= m -> m < 2 ^ k -> Zdigits2 m <= k.
Proof.
  intros H0 H. destruct (Z.eq_dec m 0) as [->|Hne]; [simpl|].
  - destruct (Z.lt_ge_cases k 0) as [Hk|Hk]; [|lia].
    rewrite Z.pow_neg_r in H by exact Hk. lia.
  - destruct (Zdigits2_bounds m ltac:(lia)) as [D [B1 B2]].
    assert (Zdigits2 m - 1 < k) by (apply pow2_lt_inv; lia). lia.
Qed.

Lemma Zdigits2_nonneg m : 0 <= m -> 0 <= Zdigits2 m.
Proof. destruct m; simpl; lia. Qed.

Lemma lt_pow2_digits m : 0 <= m -> m < 2 ^ Zdigits2 m.
Proof.
  intros H. destruct (Z.eq_dec m 0) as [->|Hne]; [simpl; lia|].
  apply Zdigits2_bounds. lia.
Qed.

Lemma shr_1_div mrs : 0 <= shr_m mrs -> shr_m (shr_1 mrs) = shr_m mrs / 2.
Proof.
  destruct mrs as [m r s]; cbn [shr_m]. intros H. unfold shr_1.
  destruct m as [|[p|p|]|p]; cbn [shr_m]; try reflexivity; try lia.
  - rewrite Pos2Z.inj_xI. Z.div_mod_to_equations. lia.
  - rewrite Pos2Z.inj_xO. Z.div_mod_to_equations. lia.
Qed.

Lemma div_pow2_twice (a : Z) (q : positive) :
  a / 2 ^ Z.pos q / 2 ^ Z.pos q = a / 2 ^ Z.pos q~0.
Proof.
  rewrite Z.div_div by (pose proof (Z.pow_pos_nonneg 2 (Z.pos q) ltac:(lia) ltac:(lia)); lia).
  rewrite <- Z.pow_add_r by lia.
  replace (Z.pos q + Z.pos q) with (Z.pos q~0) by lia. reflexivity.
Qed.

Lemma div_pow2_twice_1 (a : Z) (q : positive) :
  a / 2 / 2 ^ Z.pos q / 2 ^ Z.pos q = a / 2 ^ Z.pos q~1.
Proof.
  rewrite div_pow2_twice.
  rewrite Z.div_div by (pose proof (Z.pow_pos_nonneg 2 (Z.pos q~0) ltac:(lia) ltac:(lia)); lia).
  rewrite <- (Z.pow_1_r 2) at 1.
  rewrite <- Z.pow_add_r by lia.
  replace (1 + Z.pos q~0) with (Z.pos q~1) by lia. reflexivity.
Qed.

Lemma iter_shr_1_div p : forall mrs,
  0 <= shr_m mrs -> shr_m (iter_pos shr_1 p mrs) = shr_m mrs / 2 ^ Z.pos p.
Proof.
  induction p as [p IH|p IH|]; intros mrs H; cbn [iter_pos].
  - rewrite IH by (apply iter_shr_1_nonneg, shr_1_nonneg; exact H).
    rewrite IH by (apply shr_1_nonneg; exact H). rewrite shr_1_div by exact H.
    apply div_pow2_twice_1.
  - rewrite IH by (apply iter_shr_1_nonneg; exact H). rewrite IH by exact H.
    apply div_pow2_twice.
  - rewrite shr_1_div by exact H. reflexivity.
Qed.

Lemma fexp_eq x : fexp prec emax x = Z.max (x - 53) (-1074).
Proof. reflexivity. Qed.

Lemma shr_fexp_spec m e l :
  0 <= m ->
  shr_m (fst (shr_fexp prec emax m e l))
    = m / 2 ^ (Z.max 0 (fexp prec emax (Zdigits2 m + e) - e))
  /\ snd (shr_fexp prec emax m e l) = e + Z.max 0 (fexp prec emax (Zdigits2 m + e) - e).
Proof.
  intros Hm. unfold shr_fexp, shr.
  assert (R : shr_m (shr_record_of_loc m l) = m) by (destruct l as [|[| |]]; reflexivity).
  destruct (fexp prec emax (Zdigits2 m + e) - e) as [|p|p]; simpl.
  - rewrite R, Z.div_1_r. split; [reflexivity | lia].
  - rewrite iter_shr_1_div by (rewrite R; exact Hm). rewrite R. split; reflexivity.
  - rewrite R, Z.div_1_r. split; [reflexivity | lia].
Qed.

Lemma round_nearest_even_bounds m l : m <= round_nearest_even m l <= m + 1.
Proof. destruct l as [|[| |]]; simpl; try destruct (Z.even m); lia. Qed.

Lemma binary_round_aux_below K mx ex lx :
  0 <= K <= 1023 -> 0 <= mx -> ex <= 971 -> mx < 2 ^ (K - ex) ->
  fin_below K (binary_round_aux prec emax false mx ex lx).
Proof.
  intros HK Hm He Hlt.
  assert (HKe : ex <= K).
  { destruct (Z.le_gt_cases ex K) as [|G]; [assumption|].
    rewrite Z.pow_neg_r in Hlt by lia. lia. }
  assert (Hd : Zdigits2 mx <= K - ex) by (apply Zdigits2_pow_lt; assumption).
  pose proof (Zdigits2_nonneg mx Hm) as Hd0.
  unfold binary_round_aux.
  destruct (shr_fexp_spec mx ex lx Hm) as [M1 E1].
  destruct (shr_fexp prec emax mx ex lx) as [mrs' e'] eqn:S1. simpl in M1, E1.
  rewrite fexp_eq in M1, E1.
  set (n1 := Z.max 0 (Z.max (Zdigits2 mx + ex - 53) (-1074) - ex)) in M1, E1.
  assert (Hn1 : 0 <= n1) by lia.
  assert (He' : e' <= 971 /\ e' <= K) by lia.
  assert (P1 : 0 < 2 ^ n1) by (apply Z.pow_pos_nonneg; lia).
  assert (Hm'0 : 0 <= shr_m mrs') by (rewrite M1; apply Z.div_pos; lia).
  assert (Hm'lt : shr_m mrs' < 2 ^ (K - e')).
  { rewrite M1. apply Z.div_lt_upper_bound; [exact P1|].
    rewrite <- Z.pow_add_r by lia. replace (n1 + (K - e')) with (K - ex) by lia. exact Hlt. }
  set (m'' := round_nearest_even (shr_m mrs') (loc_of_shr_record mrs')).
  pose proof (round_nearest_even_bounds (shr_m mrs') (loc_of_shr_record mrs')) as Hr.
  fold m'' in Hr.
  assert (Hm''0 : 0 <= m'') by lia.
  assert (Hm''le : m'' <= 2 ^ (K - e')) by lia.
  pose proof (Zdigits2_pow_le m'' (K - e') ltac:(lia) Hm''0 Hm''le) as Hd''.
  pose proof (Zdigits2_nonneg m'' Hm''0) as Hd''0.
  destruct (shr_fexp_spec m'' e' loc_Exact Hm''0) as [M2 E2].
  destruct (shr_fexp prec emax m'' e' loc_Exact) as [mrs'' e''] eqn:S2. simpl in M2, E2.
  rewrite fexp_eq in M2, E2.
  set (n2 := Z.max 0 (Z.max (Zdigits2 m'' + e' - 53) (-1074) - e')) in M2, E2.
  assert (Hn2 : 0 <= n2) by lia.
  assert (He'' : e'' <= 971 /\ e'' <= K) by lia.
  assert (P2 : 0 < 2 ^ n2) by (apply Z.pow_pos_nonneg; lia).
  assert (B1 : m'' / 2 ^ n2 <= 2 ^ (K - e'')).
  { apply Z.div_le_upper_bound; [exact P2|].
    rewrite <- Z.pow_add_r by lia. replace (n2 + (K - e'')) with (K - e') by lia. exact Hm''le. }
  assert (B2 : m'' / 2 ^ n2 < 2 ^ 53).
  { apply Z.div_lt_upper_bound; [exact P2|]. rewrite <- Z.pow_add_r by lia.
    pose proof (lt_pow2_digits m'' Hm''0).
    pose proof (Z.pow_le_mono_r 2 (Zdigits2 m'') (n2 + 53) ltac:(lia) ltac:(lia)). lia. }
  assert (B0 : 0 <= m'' / 2 ^ n2) by (apply Z.div_pos; lia).
  rewrite M2. replace (emax - prec) with 971 by reflexivity.
  destruct (m'' / 2 ^ n2) as [|p|p] eqn:Em3; [exact I| |lia].
  rewrite (proj2 (Z.leb_le e'' 971) (proj1 He'')). simpl. lia.
Qed.

Ltac ok_of_below B :=
  lazymatch type of B with
  | fin_below _ ?t =>
      destruct t; try (simpl in B; contradiction);
      (eexists; split; [reflexivity | exact B])
  end.

Lemma Pos_iter_xO p k : Z.pos (Pos.iter xO p k) = Z.pos p * 2 ^ Z.pos k.
Proof.
  induction k as [|k IH] using Pos.peano_ind.
  - cbn [Pos.iter]. rewrite Pos2Z.inj_xO. change (2 ^ Z.pos 1) with 2. ring.
  - rewrite Pos.iter_succ, Pos2Z.inj_xO, IH, Pos2Z.inj_succ, Z.pow_succ_r by lia. ring.
Qed.

Lemma float_of_int_below K z :
  0 <= K <= 1023 -> 0 < z < 2 ^ K ->
  exists f, float_of_int z = Ok f /\ fin_below K f.
Proof.
  intros HK Hz. unfold float_of_int.
  destruct z as [|p|p]; try lia. unfold binary_normalize, binary_round, shl_align.
  destruct (fexp prec emax (Z.pos (digits2_pos p) + 0) - 0) as [|k|k] eqn:Ek.
  - pose proof (binary_round_aux_below K (Z.pos p) 0 loc_Exact HK ltac:(lia) ltac:(lia)
                  ltac:(rewrite Z.sub_0_r; lia)) as B.
    ok_of_below B.
  - pose proof (binary_round_aux_below K (Z.pos p) 0 loc_Exact HK ltac:(lia) ltac:(lia)
                  ltac:(rewrite Z.sub_0_r; lia)) as B.
    ok_of_below B.
  - assert (Ef : fexp prec emax (Z.pos (digits2_pos p) + 0) = Z.neg k) by lia.
    rewrite Ef.
    assert (L : Z.pos (Pos.iter xO p k) < 2 ^ (K - Z.neg k)).
    { rewrite Pos_iter_xO. replace (K - Z.neg k) with (K + Z.pos k) by lia.
      rewrite Z.pow_add_r by lia. apply Z.mul_lt_mono_pos_r; [apply Z.pow_pos_nonneg|]; lia. }
    pose proof (binary_round_aux_below K (Z.pos (Pos.iter xO p k)) (Z.neg k) loc_Exact HK
                  ltac:(lia) ltac:(lia) L) as B.
    ok_of_below B.
Qed.

Lemma SFdiv_core_below K ma mb mz ez lz :
  0 <= K -> 0 < ma < 2 ^ K -> 0 < mb ->
  SFdiv_core_binary prec emax ma 0 mb 0 = (mz, ez, lz) ->
  0 <= mz /\ ez <= 0 /\ mz < 2 ^ (K - ez).
Proof.
  intros HK Ha Hb E. unfold SFdiv_core_binary in E.
  set (e0 := Z.min _ (0 - 0)) in E.
  assert (He0 : e0 <= 0) by (unfold e0; lia).
  assert (Hm : match 0 - 0 - e0 with Z.pos _ => Z.shiftl ma (0 - 0 - e0) | Z0 => ma | Z.neg _ => 0 end
               = ma * 2 ^ (- e0)).
  { destruct (0 - 0 - e0) as [|s|s] eqn:Es.
    - replace e0 with 0 by lia. simpl. ring.
    - rewrite Z.shiftl_mul_pow2 by lia. f_equal. f_equal. lia.
    - lia. }
  rewrite Hm in E.
  destruct (Z.div_eucl (ma * 2 ^ (- e0)) mb) as [q r] eqn:D.
  injection E as <- <- _.
  assert (Q : q = ma * 2 ^ (- e0) / mb) by (unfold Z.div; rewrite D; reflexivity).
  assert (P : 0 < 2 ^ (- e0)) by (apply Z.pow_pos_nonneg; lia).
  split; [rewrite Q; apply Z.div_pos; nia|]. split; [exact He0|].
  rewrite Q. apply Z.le_lt_trans with (ma * 2 ^ (- e0)).
  - apply Z.div_le_upper_bound; [lia|]. nia.
  - replace (K - e0) with (K + - e0) by lia. rewrite Z.pow_add_r by lia.
    apply Z.mul_lt_mono_pos_r; lia.
Qed.

Lemma py_int_truediv_below K a b :
  0 <= K <= 1023 -> 0 < a < 2 ^ K -> 0 < b ->
  exists f, py_int_truediv a b = Ok f /\ fin_below K f.
Proof.
  intros HK Ha Hb. unfold py_int_truediv.
  replace (b =? 0) with false by (symmetry; apply Z.eqb_neq; lia).
  replace (a <? 0) with false by (symmetry; apply Z.ltb_ge; lia).
  replace (b <? 0) with false by (symmetry; apply Z.ltb_ge; lia).
  destruct a as [|ma|ma]; try lia. destruct b as [|mb|mb]; try lia.
  simpl xorb. simpl Z.abs. simpl Z.to_pos. unfold SFdiv.
  destruct (SFdiv_core_binary prec emax (Z.pos ma) 0 (Z.pos mb) 0) as [[mz ez] lz] eqn:D.
  destruct (SFdiv_core_below K (Z.pos ma) (Z.pos mb) mz ez lz ltac:(lia) Ha ltac:(lia) D) as [H0 [H1 H2]].
  pose proof (binary_round_aux_below K mz ez lz HK H0 ltac:(lia) H2) as B.
  simpl xorb. ok_of_below B.
Qed.

Lemma py_min2_cases a b : py_min2 a b = a \/ py_min2 a b = b.
Proof. unfold py_min2. destruct (SFltb b a); auto. Qed.

Lemma float_one_below K : 0 <= K -> fin_below K float_one.
Proof.
  intros HK. replace float_one with (S754_finite false (2 ^ 52) (-52)) by reflexivity.
  simpl fin_below. replace (Z.pos (2 ^ 52)) with (2 ^ 52) by reflexivity.
  split; [apply Z.pow_le_mono_r; lia|]. split; [|lia].
  vm_compute. reflexivity.
Qed.

Lemma float_one_eq : float_one = S754_finite false 4503599627370496 (-52).
Proof. vm_compute. reflexivity. Qed.

Lemma scale_le_one_of K f : fin_below K f -> SFleb f float_one = true -> scale_le_one f.
Proof.
  rewrite float_one_eq. intros B.
  destruct f as [s|s| |[] m e]; cbn [fin_below] in B; try contradiction; [intros; exact I|].
  destruct B as [_ [Hm _]]. cbn [SFleb SFcompare scale_le_one].
  destruct (Z.compare_spec e (-52)) as [->|Lt|Gt]; intros H; try discriminate.
  - assert (P52 : 2 ^ (- -52) = 4503599627370496) by reflexivity.
    rewrite P52. split; [lia|].
    destruct (Pos.compare_cont Eq m 4503599627370496) eqn:C; try discriminate.
    + apply Pos.compare_eq_iff in C. subst. lia.
    + apply Pos.compare_lt_iff, Pos2Z.pos_lt_pos in C. lia.
  - split; [lia|]. pose proof (Z.pow_le_mono_r 2 53 (- e) ltac:(lia) ltac:(lia)). lia.
Qed.

Lemma norm_scale_ok K w h max_w max_h :
  0 <= K <= 1023 -> 0 < w -> 0 < h -> 0 < max_w < 2 ^ K -> 0 < max_h < 2 ^ K ->
  exists sc, norm_scale w h max_w max_h = Ok sc /\ scale_le_one sc.
Proof.
  intros HK Hw Hh Hmw Hmh.
  destruct (py_int_truediv_below K max_w w HK Hmw Hw) as [sw [Ew Bw]].
  destruct (py_int_truediv_below K max_h h HK Hmh Hh) as [sh [Eh Bh]].
  assert (E : norm_scale w h max_w max_h = Ok (py_min2 (py_min2 float_one sw) sh)).
  { unfold norm_scale. replace (w >? 0) with true by (symmetry; apply Z.gtb_lt; lia).
    replace (h >? 0) with true by (symmetry; apply Z.gtb_lt; lia).
    rewrite Ew, Eh. reflexivity. }
  exists (py_min2 (py_min2 float_one sw) sh). split; [exact E|].
  apply (scale_le_one_of K).
  - destruct (py_min2_cases (py_min2 float_one sw) sh) as [-> | ->]; [|exact Bh].
    destruct (py_min2_cases float_one sw) as [-> | ->]; [apply float_one_below; lia | exact Bw].
  - apply (proj2 (norm_scale_nonneg_le w h max_w max_h _ ltac:(lia) ltac:(lia) E)).
Qed.

Lemma py_round_below K f : fin_below K f -> exists v, py_round f = Ok v.
Proof. destruct f as [s|s| |[] m e]; simpl; try contradiction; eauto. Qed.

Lemma mul_round_ok K a sc :
  0 <= K <= 1022 -> 0 < a < 2 ^ K -> scale_le_one sc ->
  exists f v, py_int_mul_float a sc = Ok f /\ py_round f = Ok v.
Proof.
  intros HK Ha Hs.
  destruct (float_of_int_below K a ltac:(lia) Ha) as [fa [Ea Ba]].
  unfold py_int_mul_float. rewrite Ea. simpl bind.
  destruct fa as [s|s| |[] ma ea]; simpl in Ba; try contradiction;
    destruct sc as [t|t| |[] ms es]; simpl in Hs; try contradiction;
    try (do 2 eexists; split; [reflexivity | reflexivity]).
  destruct Ba as [Ba1 [_ Ba3]]. destruct Hs as [Hs1 Hs2].
  assert (HKa : 0 <= K - ea).
  { destruct (Z.le_gt_cases 0 (K - ea)) as [|G]; [assumption|].
    rewrite Z.pow_neg_r in Ba1 by lia. lia. }
  assert (L : Z.pos (ma * ms) < 2 ^ (K + 1 - (ea + es))).
  { rewrite Pos2Z.inj_mul.
    replace (K + 1 - (ea + es)) with (1 + ((K - ea) + - es)) by lia.
    rewrite !Z.pow_add_r by lia.
    assert (Z.pos ma * Z.pos ms <= 2 ^ (K - ea) * 2 ^ (- es)) by (apply Z.mul_le_mono_nonneg; lia).
    pose proof (Z.pow_pos_nonneg 2 (K - ea) ltac:(lia) HKa).
    pose proof (Z.pow_pos_nonneg 2 (- es) ltac:(lia) ltac:(lia)). simpl (2 ^ 1). nia. }
  pose proof (binary_round_aux_below (K + 1) (Z.pos (ma * ms)) (ea + es) loc_Exact
                ltac:(lia) ltac:(lia) ltac:(lia) L) as B.
  destruct (py_round_below _ _ B) as [v Ev].
  simpl xorb. do 2 eexists. split; [reflexivity | exact Ev].
Qed.

Lemma normalize_size_ok w h max_w max_h :
  0 < w < 2 ^ 1022 -> 0 < h < 2 ^ 1022 -> 0 < max_w < 2 ^ 1022 -> 0 < max_h < 2 ^ 1022 ->
  exists w2 h2, normalize_size w h max_w max_h = Ok (w2, h2).
Proof.
  intros Hw Hh Hmw Hmh.
  destruct (norm_scale_ok 1022 w h max_w max_h ltac:(lia) ltac:(lia) ltac:(lia) Hmw Hmh)
    as [sc [Es Hs]].
  destruct (mul_round_ok 1022 w sc ltac:(lia) Hw Hs) as [fw [w2 [Fw W2]]].
  destruct (mul_round_ok 1022 h sc ltac:(lia) Hh Hs) as [fh [h2 [Fh H2]]].
  exists w2, h2. unfold normalize_size. rewrite Es. simpl bind. rewrite Fw. simpl bind.
  rewrite W2. simpl bind. rewrite Fh. simpl bind. rewrite H2. reflexivity.
Qed.

End FloatRange.

(** ** Page count and the shelf sequence *)

Section SublistFacts.

Context {A : Type}.

Lemma sublist_refl (l : list A) : sublist l l.
Proof. induction l as [|a l IH]; [constructor|apply sublist_cons; exact IH]. Qed.

Lemma sublist_nil_l (l : list A) : sublist [] l.
Proof. induction l as [|a l IH]; [constructor|apply sublist_skip; exact IH]. Qed.

Lemma sublist_nil_r (l : list A) : sublist l [] -> l = [].
Proof. intros H. inversion H; reflexivity. Qed.

Lemma sublist_cons_l (a : A) l m : sublist (a :: l) m -> sublist l m.
Proof.
  revert l. induction m as [|b m IH]; intros l H; inversion H; subst.
  - apply sublist_skip. apply IH. assumption.
  - apply sublist_skip. assumption.
Qed.

Lemma sublist_app_l (l1 l2 m : list A) : sublist (l1 ++ l2) m -> sublist l2 m.
Proof.
  induction l1 as [|a l1 IH]; simpl; intros H; [exact H|].
  apply IH. exact (sublist_cons_l _ _ _ H).
Qed.

Lemma sublist_app_inv (l X Y : list A) :
  sublist l (X ++ Y) -> exists l1 l2, l = l1 ++ l2 /\ sublist l1 X /\ sublist l2 Y.
Proof.
  revert l. induction X as [|x X IH]; simpl; intros l H.
  - exists [], l. split; [reflexivity|]. split; [constructor|exact H].
  - inversion H as [|? ? ? H'|? l' ? H']; subst.
    + destruct (IH l H') as [l1 [l2 [-> [H1 H2]]]].
      exists l1, l2. split; [reflexivity|]. split; [constructor; exact H1|exact H2].
    + destruct (IH l' H') as [l1 [l2 [-> [H1 H2]]]].
      exists (x :: l1), l2. split; [reflexivity|]. split; [constructor; exact H1|exact H2].
Qed.

Lemma sublist_Forall (P : A -> Prop) l m : sublist l m -> Forall P m -> Forall P l.
Proof.
  induction 1; intros HF; [constructor| |].
  - inversion HF; subst; auto.
  - inversion HF; subst; constructor; auto.
Qed.

Lemma sublist_single (a b : A) l : sublist (a :: l) [b] -> a = b /\ l = [].
Proof.
  intros H. inversion H as [|? ? ? H'|? ? ? H']; subst.
  - inversion H'.
  - split; [reflexivity|]. exact (sublist_nil_r _ H').
Qed.

End SublistFacts.

Lemma StronglySorted_app_r {A} (R : A -> A -> Prop) l1 l2 :
  StronglySorted R (l1 ++ l2) -> StronglySorted R l2.
Proof.
  induction l1 as [|a l1 IH]; simpl; intros H; [exact H|].
  apply IH. exact (proj1 (StronglySorted_inv H)).
Qed.

Lemma in_insert_by_h x l y : In y (insert_by_h x l) -> y = x \/ In y l.
Proof.
  induction l as [|a l IH]; simpl; [intros [<-|[]]; auto|].
  destruct (sz_h x <=? sz_h a); simpl.
  - intros [<-|Hy]; [auto|]. destruct (IH Hy); auto.
  - intros [<-|[<-|Hy]]; auto.
Qed.

Lemma Forall_insert_by_h (P : size -> Prop) x l :
  P x -> Forall P l -> Forall P (insert_by_h x l).
Proof.
  intros Hx Hl. apply Forall_forall. intros y Hy.
  destruct (in_insert_by_h _ _ _ Hy) as [->|Hy']; [exact Hx|].
  rewrite Forall_forall in Hl. exact (Hl y Hy').
Qed.

Lemma sorted_insert_by_h x l :
  StronglySorted h_desc l -> StronglySorted h_desc (insert_by_h x l).
Proof.
  induction l as [|a l IH]; simpl; intros H.
  - repeat constructor.
  - apply StronglySorted_inv in H as [Hl Ha].
    destruct (Z.leb_spec (sz_h x) (sz_h a)) as [Hxa|Hxa].
    + constructor; [exact (IH Hl)|]. apply Forall_insert_by_h; [exact Hxa|exact Ha].
    + constructor; [constructor; assumption|]. constructor; [unfold h_desc; lia|].
      eapply Forall_impl; [|exact Ha]. unfold h_desc; intros b Hb; lia.
Qed.

Lemma sublist_insert_by_h x l : sublist l (insert_by_h x l).
Proof.
  induction l as [|a l IH]; simpl; [apply sublist_skip; constructor|].
  destruct (sz_h x <=? sz_h a).
  - apply sublist_cons; exact IH.
  - apply sublist_skip; apply sublist_refl.
Qed.

Lemma sort_by_h_desc_snoc L s :
  sort_by_h_desc (L ++ [s]) = insert_by_h s (sort_by_h_desc L).
Proof. unfold sort_by_h_desc. rewrite fold_left_app. reflexivity. Qed.

Lemma sort_by_h_desc_sorted L : StronglySorted h_desc (sort_by_h_desc L).
Proof.
  unfold sort_by_h_desc. assert (H : StronglySorted h_desc (@nil size)) by constructor.
  revert H. generalize (@nil size). induction L as [|x L IH]; simpl; intros acc H; [exact H|].
  apply IH. apply sorted_insert_by_h. exact H.
Qed.

Lemma sort_by_h_desc_Forall (P : size -> Prop) L : Forall P L -> Forall P (sort_by_h_desc L).
Proof.
  unfold sort_by_h_desc. assert (H : Forall P (@nil size)) by constructor.
  revert H. generalize (@nil size). induction L as [|x L IH]; simpl; intros acc H HL; [exact H|].
  inversion HL; subst. apply IH; [apply Forall_insert_by_h|]; assumption.
Qed.

Section Monotone.

Variables page_w_px page_h_px padding : Z.
Hypothesis padding_nonneg : 0 <= padding.
Hypothesis page_h_ok : 2 * padding < page_h_px.

Local Abbreviation fill_shelf := (fill_shelf page_w_px padding).
Local Abbreviation fill_page := (fill_page page_w_px page_h_px padding).
Local Abbreviation pack_loop := (pack_loop page_w_px page_h_px padding).
Local Abbreviation fits := (fits page_w_px padding).
Local Abbreviation shelves := (shelves page_w_px padding).
Local Abbreviation pg_step := (pg_step page_h_px padding).
Local Abbreviation valid := (valid padding).

(** *** Shelves *)

Lemma fill_shelf_consumed y x h rx ps sx sh r :
  fill_shelf y x h rx = (ps, sx, sh, r) ->
  exists A, rx = A ++ r /\ fits x A /\ Forall (fun s => sz_h s <= sh) A.
Proof.
  revert x h ps sx sh r.
  induction rx as [|[[w hh] i] rx IH]; simpl; intros x h ps sx sh r E.
  - injection E as E1 E2 E3 E4; subst. exists []. split; [reflexivity|]. split; [exact I|constructor].
  - destruct (w + x + padding <=? page_w_px) eqn:Fit.
    + destruct (fill_shelf y (x + (w + padding)) (if hh >? h then hh else h) rx)
        as [[[ps0 sx0] sh0] r0] eqn:E0.
      injection E as E1 E2 E3 E4; subst.
      destruct (IH _ _ _ _ _ _ E0) as [A [-> [FA HA]]].
      destruct (fill_shelf_heights page_w_px padding _ _ _ _ _ _ _ _ E0) as [Hle _].
      exists ((w, hh, i) :: A). split; [reflexivity|]. split.
      * simpl. split; [apply Z.leb_le; exact Fit|exact FA].
      * constructor; [|exact HA]. simpl. destruct (Z.gtb_spec hh h); lia.
    + injection E as E1 E2 E3 E4; subst. exists []. split; [reflexivity|].
      split; [exact I|constructor].
Qed.

Lemma fits_mono A B x x' :
  Forall (fun s => 0 <= sz_w s) A -> sublist B A -> x' <= x -> fits x A -> fits x' B.
Proof.
  intros HA Hs. revert HA x x'.
  induction Hs as [|[[w h] i] l1 l2 Hs IH|[[w h] i] l1 l2 Hs IH]; intros HA x x' Hx F.
  - exact I.
  - inversion HA as [|? ? Hw HA']; subst. simpl in Hw, F. destruct F as [_ F].
    exact (IH HA' (x + (w + padding)) x' ltac:(lia) F).
  - inversion HA as [|? ? Hw HA']; subst. simpl in Hw, F |- *. destruct F as [Fw F].
    split; [lia|]. exact (IH HA' (x + (w + padding)) (x' + (w + padding)) ltac:(lia) F).
Qed.

Lemma fill_shelf_fits_prefix y x h A r ps sx sh r' :
  fits x A -> fill_shelf y x h (A ++ r) = (ps, sx, sh, r') -> exists pre, r = pre ++ r'.
Proof.
  revert x h ps sx sh r'.
  induction A as [|[[w hh] i] A IH]; intros x h ps sx sh r' F E.
  - exact (fill_shelf_suffix page_w_px padding _ _ _ _ _ _ _ _ E).
  - simpl in F, E. destruct F as [Fit F].
    replace (w + x + padding <=? page_w_px) with true in E by (symmetry; apply Z.leb_le; exact Fit).
    destruct (fill_shelf y (x + (w + padding)) _ (A ++ r)) as [[[ps0 sx0] sh0] r0] eqn:E0.
    injection E as E1 E2 E3 E4; subst. exact (IH _ _ _ _ _ _ F E0).
Qed.

Lemma fill_shelf_head y x h w hh i r ps sx sh r' :
  w + x + padding <= page_w_px -> fill_shelf y x h ((w, hh, i) :: r) = (ps, sx, sh, r') ->
  hh <= sh.
Proof.
  intros Fit E. simpl in E.
  replace (w + x + padding <=? page_w_px) with true in E by (symmetry; apply Z.leb_le; exact Fit).
  destruct (fill_shelf y _ _ r) as [[[ps0 sx0] sh0] r0] eqn:E0.
  injection E as E1 E2 E3 E4; subst.
  destruct (fill_shelf_heights page_w_px padding _ _ _ _ _ _ _ _ E0) as [Hle _].
  destruct (Z.gtb_spec hh h); lia.
Qed.

Lemma fill_shelf_nofit y x h w hh i r :
  page_w_px < w + x + padding ->
  fill_shelf y x h ((w, hh, i) :: r) = ([], x, h, (w, hh, i) :: r).
Proof.
  intros Fit. simpl.
  replace (w + x + padding <=? page_w_px) with false by (symmetry; apply Z.leb_gt; exact Fit).
  reflexivity.
Qed.

Lemma fill_shelf_bound y x h ry ps sx sh r M :
  h <= M -> Forall (fun s => sz_h s <= M) ry -> fill_shelf y x h ry = (ps, sx, sh, r) -> sh <= M.
Proof.
  revert x h ps sx sh r.
  induction ry as [|[[w hh] i] ry IH]; simpl; intros x h ps sx sh r Hh HF E.
  - injection E as E1 E2 E3 E4; subst. exact Hh.
  - inversion HF as [|? ? Hw HF']; subst. simpl in Hw.
    destruct (w + x + padding <=? page_w_px).
    + destruct (fill_shelf y _ _ ry) as [[[ps0 sx0] sh0] r0] eqn:E0.
      injection E as E1 E2 E3 E4; subst.
      refine (IH _ _ _ _ _ _ _ HF' E0). destruct (Z.gtb_spec hh h); lia.
    + injection E as E1 E2 E3 E4; subst. exact Hh.
Qed.

Lemma fallback_same y y' s r r' p p' nh nh' r2 r2' :
  fallback page_w_px padding y (s :: r) = Ok (p, nh, r2) ->
  fallback page_w_px padding y' (s :: r') = Ok (p', nh', r2') -> nh = nh'.
Proof.
  destruct s as [[w h] idx]. unfold fallback. cbv beta iota zeta.
  destruct (page_w_px - 2 * padding <=? 0); [discriminate|].
  destruct (py_int_truediv (page_w_px - 2 * padding) w) as [sc| |]; simpl; try discriminate.
  destruct (py_int_mul_float w sc) as [fw| |]; simpl; try discriminate.
  destruct (py_round fw) as [nw| |]; simpl; try discriminate.
  destruct (py_int_mul_float h sc) as [fh| |]; simpl; try discriminate.
  destruct (py_round fh) as [nh0| |]; simpl; try discriminate.
  intros E1 E2. injection E1 as E1 E1' E1''. injection E2 as E2 E2' E2''. congruence.
Qed.

(** What one shelf step consumes: either images that all pass the fit
    test, the shelf being as tall as each of them, or a single image too
    wide for the page, whose fallback height does not depend on [y] or
    on the images after it. *)
Lemma shelf_step_cover y rx ps tx rx' :
  Forall pos_size rx -> shelf_step page_w_px padding y rx = Ok (ps, tx, rx') ->
  0 <= tx /\ exists A, rx = A ++ rx' /\
   ((fits padding A /\ Forall (fun s => sz_h s <= tx) A) \/
    (exists x0, A = [x0] /\ page_w_px < sz_w x0 + padding + padding /\
       forall y' r p' nh' r2, fallback page_w_px padding y' (x0 :: r) = Ok (p', nh', r2) -> nh' = tx)).
Proof.
  intros Hp E. unfold shelf_step in E.
  destruct (fill_shelf y padding 0 rx) as [[[ps0 sx0] sh0] r0] eqn:E0.
  destruct (fill_shelf_consumed _ _ _ _ _ _ _ _ E0) as [A0 [Erx [FA HA]]].
  destruct (fill_shelf_heights page_w_px padding _ _ _ _ _ _ _ _ E0) as [Hsh _].
  destruct (Z.eqb_spec sh0 0) as [Z0|Z0].
  - subst sh0. assert (A0 = []) as ->.
    { destruct A0 as [|a A0]; [reflexivity|]. exfalso. rewrite Erx in Hp.
      inversion Hp as [|? ? Ha _]; subst. inversion HA as [|? ? Hha _]; subst.
      unfold pos_size in Ha. lia. }
    simpl in Erx. subst r0.
    apply bind_ok in E as [[[p nh] r2] [F E]]. injection E as E1 E2 E3; subst.
    destruct rx as [|[[w h] idx] rx0]; [discriminate|].
    inversion Hp as [|? ? Hs Hp']; subst. unfold pos_size in Hs; simpl in Hs.
    pose proof (fun Hw Hh => fallback_geom page_w_px padding _ _ _ _ _ _ _ _ Hw Hh F) as Hg.
    destruct (Hg ltac:(lia) ltac:(lia))
      as [Hnh [_ ->]].
    split; [exact Hnh|]. exists [(w, h, idx)]. split; [reflexivity|]. right.
    exists (w, h, idx). split; [reflexivity|]. split.
    + simpl. destruct (Z.leb_spec (w + padding + padding) page_w_px) as [Fit|Fit]; [|lia].
      pose proof (fill_shelf_head _ _ _ _ _ _ _ _ _ _ _ Fit E0). lia.
    + intros y' r p' nh' r2' F'. exact (eq_sym (fallback_same _ _ _ _ _ _ _ _ _ _ _ F F')).
  - injection E as E1 E2 E3; subst ps tx rx'. split; [lia|].
    exists A0. split; [exact Erx|]. left. split; assumption.
Qed.

Lemma shelves_nil_inv T : shelves [] T -> T = [].
Proof. intros H. inversion H; [reflexivity|congruence]. Qed.

(** The shelves of a height-sorted sublist [ry] of [rx] are dominated by
    the shelves of [rx]. *)
Lemma shelves_dom rx TX :
  shelves rx TX -> forall ry TY,
  Forall pos_size rx -> sublist ry rx -> StronglySorted h_desc ry -> shelves ry TY ->
  dom TX TY.
Proof.
  induction 1 as [|y rx ps tx rx' TX' Hne Hstep HX IH]; intros ry TY Hp Hsub Hsort HY.
  - apply sublist_nil_r in Hsub; subst ry. rewrite (shelves_nil_inv _ HY). constructor.
  - destruct (shelf_step_cover _ _ _ _ _ Hp Hstep) as [Htx [A [Erx Hcase]]].
    assert (Hp' : Forall pos_size rx') by (rewrite Erx in Hp; exact (Forall_suffix _ _ _ Hp)).
    assert (HpA : Forall pos_size A) by (rewrite Erx in Hp; apply Forall_app in Hp; apply Hp).
    rewrite Erx in Hsub. destruct (sublist_app_inv _ _ _ Hsub) as [Ay [ry1 [Ery [HsA Hs1]]]].
    subst ry. destruct Ay as [|a Ay].
    + simpl in *. apply dom_skip; [exact Htx|]. exact (IH ry1 TY Hp' Hs1 Hsort HY).
    + assert (Hpy : Forall pos_size ((a :: Ay) ++ ry1))
        by (apply (sublist_Forall _ _ _ Hsub); rewrite <- Erx; exact Hp).
      inversion HY as [|y' ry0 psy ty ry' TY' Hne' Hstep' HY' Eq1 Eq2]; subst.
      destruct (shelf_step_suffix page_w_px padding _ _ _ _ _ Hstep') as [pre' Epre'].
      assert (Key : 0 <= ty <= tx /\ sublist ry' rx').
      { destruct Hcase as [[FA HA] | [x0 [-> [Wide Hfb]]]].
        - assert (Fy : fits padding (a :: Ay)).
          { apply (fits_mono A (a :: Ay) padding padding); [|exact HsA|lia|exact FA].
            eapply Forall_impl; [|exact HpA]. unfold pos_size; intros s0 Hs0; lia. }
          unfold shelf_step in Hstep'.
          destruct (fill_shelf y' padding 0 ((a :: Ay) ++ ry1)) as [[[psy0 sxy] shy0] ry0'] eqn:EY.
          destruct (fill_shelf_fits_prefix _ _ _ _ _ _ _ _ _ Fy EY) as [pre Epre].
          inversion Hpy as [|? ? Ha _]; subst.
          destruct a as [[wa ha] ia]. unfold pos_size in Ha; simpl in Ha.
          destruct Fy as [Fa _].
          pose proof (fill_shelf_head _ _ _ _ _ _ _ _ _ _ _ Fa EY) as Hhead.
          destruct (Z.eqb_spec shy0 0) as [Z0|Z0]; [lia|].
          injection Hstep' as E1 E2 E3; subst psy ty ry'.
          assert (Hbound : shy0 <= ha).
          { refine (fill_shelf_bound y' padding 0 _ _ _ _ _ ha ltac:(lia) _ EY).
            apply StronglySorted_inv in Hsort as [_ Hs]. constructor; [simpl; lia|].
            eapply Forall_impl; [|exact Hs]. unfold h_desc; simpl; intros b Hb; lia. }
          assert (Hin : In (wa, ha, ia) A).
          { assert (Hf : Forall (fun s => In s A) ((wa, ha, ia) :: Ay)).
            { apply (sublist_Forall _ _ _ HsA). apply Forall_forall; auto. }
            inversion Hf; assumption. }
          rewrite Forall_forall in HA. pose proof (HA _ Hin) as Htx'. simpl in Htx'.
          split; [lia|]. exact (sublist_app_l _ _ _ Hs1).
        - destruct (sublist_single _ _ _ HsA) as [-> ->].
          destruct x0 as [[w0 h0] i0]. simpl in Wide.
          inversion Hpy as [|? ? Ha _]; subst. unfold pos_size in Ha; simpl in Ha.
          unfold shelf_step in Hstep'. cbn [app] in Hstep'.
          rewrite fill_shelf_nofit in Hstep' by lia.
          cbv beta iota zeta in Hstep'. rewrite Z.eqb_refl in Hstep'.
          apply bind_ok in Hstep' as [[[p nh] r2] [F E]]. injection E as E1 E2 E3; subst.
          pose proof (fun Hw Hh => fallback_geom page_w_px padding _ _ _ _ _ _ _ _ Hw Hh F) as Hg.
    destruct (Hg ltac:(lia) ltac:(lia))
            as [Hnh [_ ->]].
          pose proof (Hfb _ _ _ _ _ F). subst. split; [lia|exact Hs1]. }
      destruct Key as [Hty Hsub'].
      apply dom_both; [exact Hty|].
      apply (IH ry' TY' Hp' Hsub'); [|exact HY'].
      rewrite Epre' in Hsort. exact (StronglySorted_app_r _ _ _ Hsort).
Qed.

(** *** Pages *)

Lemma fill_page_fold fuel y rest ps r' :
  (length rest < fuel)%nat -> fill_page fuel y rest = Ok (ps, r') ->
  forall T', shelves r' T' ->
  exists T ye, shelves rest (T ++ T') /\ (T = [] -> r' = rest) /\
    (forall c, fold_left pg_step T (c, y) = (c, ye)) /\
    (r' <> [] -> page_h_px - padding <= ye).
Proof.
  revert y rest ps r'.
  induction fuel as [|fuel IH]; intros y rest ps r' Hf E T' HT'; [lia|].
  simpl in E.
  destruct (Z.ltb y (page_h_px - padding) && _) eqn:C.
  - apply andb_true_iff in C as [Cy Cr]. apply Z.ltb_lt in Cy.
    assert (Hne : rest <> []) by (destruct rest; [discriminate|congruence]).
    apply bind_ok in E as [[[ps1 sh] r1] [S1 E]].
    destruct (shelf_step_progress page_w_px padding _ _ _ _ _ S1) as [H1 Hl].
    destruct (Z.geb (y + sh + padding) (page_h_px - padding) && _) eqn:C2.
    + injection E as E1 E2; subst.
      apply andb_true_iff in C2 as [C2y _]. apply Z.geb_le in C2y.
      exists [sh], (y + sh + padding). split; [exact (shelves_step page_w_px padding y rest ps sh r' T' Hne S1 HT')|].
      split; [discriminate|]. split; [|intros _; lia].
      intros c. simpl. rewrite (proj2 (Z.ltb_lt _ _) Cy). reflexivity.
    + apply bind_ok in E as [[ps2 r2] [F2 E]]. injection E as E1 E2; subst.
      destruct (IH (y + sh + padding) r1 ps2 r' ltac:(lia) F2 T' HT')
        as [T2 [ye [HT2 [_ [Hfold Hye]]]]].
      exists (sh :: T2), ye.
      split; [exact (shelves_step page_w_px padding y rest ps1 sh r1 (T2 ++ T') Hne S1 HT2)|].
      split; [discriminate|]. split; [|exact Hye].
      intros c. simpl. rewrite (proj2 (Z.ltb_lt _ _) Cy). apply Hfold.
  - injection E as E1 E2; subst. exists [], y.
    split; [exact HT'|]. split; [reflexivity|]. split; [reflexivity|].
    intros Hne. destruct (Z.ltb_spec y (page_h_px - padding)) as [Hlt|Hge]; [|lia].
    exfalso. destruct r' as [|s0 r0]; [congruence|]. simpl in C. discriminate.
Qed.

Lemma pack_loop_fold fuel rest pages :
  pack_loop fuel rest = Ok pages ->
  exists T, shelves rest T /\
    forall c y, page_h_px - padding <= y ->
    fst (fold_left pg_step T (c, y)) = (c + length pages)%nat.
Proof.
  revert rest pages. induction fuel as [|fuel IH]; intros rest pages E.
  - destruct rest; simpl in E; [|discriminate]. injection E as <-.
    exists []. split; [constructor|]. intros c y _. simpl. lia.
  - destruct rest as [|s0 rest0]; simpl in E.
    + injection E as <-. exists []. split; [constructor|]. intros c y _. simpl. lia.
    + destruct (fill_one_page page_w_px page_h_px padding (s0 :: rest0)) as [[pl r1]| |] eqn:F; simpl in E; try discriminate.
      destruct (Nat.eqb_spec (length r1) (S (length rest0))) as [Hl|Hl]; [discriminate|].
      apply bind_ok in E as [pages' [P E]]. injection E as <-.
      destruct (IH r1 pages' P) as [T1 [HT1 Hc1]].
      unfold fill_one_page in F.
      destruct (fill_page_fold _ _ _ _ _ (Nat.lt_succ_diag_r _) F T1 HT1)
        as [T0 [ye [HT [H0 [Hfold Hye]]]]].
      destruct T0 as [|t0 T0']; [exfalso; apply Hl; rewrite (H0 eq_refl); reflexivity|].
      exists ((t0 :: T0') ++ T1). split; [exact HT|].
      intros c y Hy. rewrite fold_left_app.
      assert (E0 : fold_left pg_step (t0 :: T0') (c, y) = (S c, ye)).
      { specialize (Hfold (S c)). cbn [fold_left] in Hfold |- *.
        unfold pg_step at 2 in Hfold. unfold pg_step at 2.
        rewrite (proj2 (Z.ltb_ge _ _) Hy).
        rewrite (proj2 (Z.ltb_lt padding (page_h_px - padding)) ltac:(lia)) in Hfold.
        exact Hfold. }
      rewrite E0. destruct r1 as [|r1h r1t].
      * rewrite (shelves_nil_inv _ HT1) in Hc1 |- *.
        pose proof (Hc1 0%nat (page_h_px - padding) (Z.le_refl _)) as Hz.
        simpl in Hz |- *. lia.
      * rewrite (Hc1 (S c) ye (Hye ltac:(discriminate))). simpl length. lia.
Qed.

Lemma pg_step_valid st t : 0 <= t -> valid st -> valid (pg_step st t).
Proof.
  destruct st as [c y]. unfold valid, pg_step. simpl. intros Ht Hv.
  destruct (Z.ltb_spec y (page_h_px - padding)); simpl; lia.
Qed.

Lemma pg_step_grow st t : 0 <= t -> valid st -> st_le st (pg_step st t).
Proof.
  destruct st as [c y]. unfold st_le, valid, pg_step. simpl. intros Ht Hv.
  destruct (Z.ltb_spec y (page_h_px - padding)); simpl; lia.
Qed.

Lemma pg_step_mono s1 s2 t1 t2 :
  0 <= t1 <= t2 -> valid s1 -> valid s2 -> st_le s1 s2 -> st_le (pg_step s1 t1) (pg_step s2 t2).
Proof.
  destruct s1 as [c1 y1], s2 as [c2 y2]. unfold st_le, valid, pg_step. simpl. intros Ht H1 H2 Hle.
  destruct (Z.ltb_spec y1 (page_h_px - padding)); destruct (Z.ltb_spec y2 (page_h_px - padding));
    simpl; lia.
Qed.

Lemma st_le_trans a b c : st_le a b -> st_le b c -> st_le a c.
Proof. unfold st_le. lia. Qed.

Lemma fold_dom N O :
  dom N O -> forall s1 s2, valid s1 -> valid s2 -> st_le s1 s2 ->
  st_le (fold_left pg_step O s1) (fold_left pg_step N s2).
Proof.
  induction 1 as [|n o N O Hno HD IH|n N O Hn HD IH]; intros s1 s2 V1 V2 Hle; cbn [fold_left].
  - exact Hle.
  - apply IH; [apply pg_step_valid; [lia|exact V1]|apply pg_step_valid; [lia|exact V2]|].
    apply pg_step_mono; assumption.
  - apply IH; [exact V1|apply pg_step_valid; assumption|].
    exact (st_le_trans _ _ _ Hle (pg_step_grow _ _ Hn V2)).
Qed.

End Monotone.

(** ** Claims *)

Lemma ForallOrdPairs_nth {A} (R : A -> A -> Prop) l :
  ForallOrdPairs R l ->
  forall i j a b, (i < j)%nat -> nth_error l i = Some a -> nth_error l j = Some b -> R a b.
Proof.
  induction 1 as [|x l Hx Hl IH]; intros i j a b Hij Ei Ej; [destruct i; discriminate|].
  destruct i as [|i]; destruct j as [|j]; try lia; simpl in Ei, Ej.
  - injection Ei as <-. rewrite Forall_forall in Hx. apply Hx. eapply nth_error_In; eauto.
  - apply (IH i j); auto; lia.
Qed.

Lemma sep_sym p q : sep p q -> sep q p.
Proof. unfold sep; tauto. Qed.

(** C1 (completeness).  For positive sizes and a page with
    [pageWidth > 2*padding] and [pageHeight > 2*padding],
    [pack_images_shelf] terminates; it either returns pages whose
    placement ids, read page after page, are exactly the input ids (same
    multiset, and even the same order), or raises [OverflowError], which
    only the float conversions of the fallback can raise (integers beyond
    the binary64 range). *)
Theorem pack_complete (sizes : list size) (page_w_px page_h_px padding : Z) :
  Forall pos_size sizes -> 2 * padding < page_w_px -> 2 * padding < page_h_px ->
  (exists pages, pack_images_shelf sizes page_w_px page_h_px padding = Ok pages /\
                 flat_map (map pl_idx) pages = map sz_idx sizes) \/
  pack_images_shelf sizes page_w_px page_h_px padding = Raise OverflowError.
Proof.
  intros Hp Hw Hh. unfold pack_images_shelf.
  destruct (pack_loop page_w_px page_h_px padding (S (length sizes)) sizes)
    as [pages|e|] eqn:E.
  - left. exists pages. split; [reflexivity|]. exact (pack_loop_ids _ _ _ _ _ _ E).
  - right. f_equal. apply (pack_loop_only_overflow page_w_px page_h_px padding
                              (S (length sizes)) sizes Hp ltac:(lia) e E).
  - exfalso. exact (pack_loop_terminates _ _ _ _ _ Hh (Nat.lt_succ_diag_r _) E).
Qed.

Lemma pack_complete_witness :
  (exists pages, pack_images_shelf [(100,100,0); (100,100,1); (100,100,2)] 300 300 10 = Ok pages /\
                 flat_map (map pl_idx) pages = map sz_idx [(100,100,0); (100,100,1); (100,100,2)]) \/
  pack_images_shelf [(100,100,0); (100,100,1); (100,100,2)] 300 300 10 = Raise OverflowError.
Proof.
  apply pack_complete.
  - repeat constructor; simpl; lia.
  - lia.
  - lia.
Defined.

(** C2 (non-overlap).  For positive sizes, [padding >= 0] and a page
    with [pageWidth > 2*padding], [pageHeight > 2*padding]: any two
    placements at distinct positions of one returned page are separated
    along x or y ([sep]), so their open interiors are disjoint. *)
Theorem pack_no_overlap (sizes : list size) (page_w_px page_h_px padding : Z) pages :
  Forall pos_size sizes -> 0 <= padding ->
  2 * padding < page_w_px -> 2 * padding < page_h_px ->
  pack_images_shelf sizes page_w_px page_h_px padding = Ok pages ->
  forall page, In page pages ->
  forall i j p q, i <> j -> nth_error page i = Some p -> nth_error page j = Some q ->
  sep p q.
Proof.
  intros Hp Hpad _ _ E page Hin i j p q Hij Ei Ej.
  pose proof (pack_loop_geom page_w_px page_h_px padding Hpad _ _ _ Hp E) as G.
  rewrite Forall_forall in G. destruct (G page Hin) as [_ Ho].
  destruct (Nat.lt_gt_cases i j) as [[Hlt|Hgt] _]; [exact Hij| |].
  - exact (ForallOrdPairs_nth _ _ Ho i j p q Hlt Ei Ej).
  - apply sep_sym. exact (ForallOrdPairs_nth _ _ Ho j i q p Hgt Ej Ei).
Qed.

Lemma pack_no_overlap_witness :
  Forall pos_size [(100,100,0); (100,100,1); (100,100,2)] /\
  sep (0,10,10,100,100) (2,10,120,100,100).
Proof.
  split; [repeat constructor; simpl; lia|].
  apply (pack_no_overlap [(100,100,0); (100,100,1); (100,100,2)] 300 300 10
           [[(0,10,10,100,100); (1,120,10,100,100); (2,10,120,100,100)]]
           ltac:(repeat constructor; simpl; lia) ltac:(lia) ltac:(lia) ltac:(lia)
           ltac:(vm_compute; reflexivity)
           [(0,10,10,100,100); (1,120,10,100,100); (2,10,120,100,100)]
           ltac:(left; reflexivity) 0%nat 2%nat); [discriminate | reflexivity | reflexivity].
Defined.

(** C3 (containment), counterexample.  A 100x300 image on a 300x300
    page with padding 10 is not wider than the usable width (so it is not
    a fallback placement), yet it is placed at [y = 10] with height 300,
    so [p.y + p.height = 310 > 290 = H - pad]. *)
Lemma containment_counterexample :
  pack_images_shelf [(100,300,0)] 300 300 10 = Ok [[(0,10,10,100,300)]] /\
  100 <= 300 - 2 * 10 /\
  ~ (pl_y (0,10,10,100,300) + pl_h (0,10,10,100,300) <= 300 - 10).
Proof. vm_compute. split; [reflexivity|]. split; [discriminate|]. intros H; apply H; reflexivity. Qed.

(** C3 (containment), amended.  For positive sizes and [padding >= 0],
    every placement of every returned page starts inside the usable
    height ([pad <= p.y < H - pad]); it lies inside the usable width
    ([pad <= p.x] and [p.x + p.width <= W - pad]) unless it is a fallback
    placement, at [x = pad], of an input image wider than [W - 2*pad].
    Its bottom edge [p.y + p.height] is not bounded by [H - pad]. *)
Theorem pack_containment (sizes : list size) (page_w_px page_h_px padding : Z) pages :
  Forall pos_size sizes -> 0 <= padding ->
  pack_images_shelf sizes page_w_px page_h_px padding = Ok pages ->
  forall page, In page pages -> forall p, In p page ->
  padding <= pl_y p /\ pl_y p < page_h_px - padding /\
  (horiz_ok page_w_px padding p \/ is_fallback page_w_px padding sizes p).
Proof.
  intros Hp Hpad E page Hpage p Hin.
  pose proof (pack_loop_geom page_w_px page_h_px padding Hpad _ _ _ Hp E) as G.
  rewrite Forall_forall in G. destruct (G page Hpage) as [G1 _].
  rewrite Forall_forall in G1. destruct (G1 p Hin) as [Hy [_ Hx]].
  repeat split; try lia; exact Hx.
Qed.

Lemma pack_containment_witness :
  10 <= pl_y (0,10,10,100,300) /\ pl_y (0,10,10,100,300) < 300 - 10 /\
  (horiz_ok 300 10 (0,10,10,100,300) \/ is_fallback 300 10 [(100,300,0)] (0,10,10,100,300)).
Proof.
  apply (pack_containment [(100,300,0)] 300 300 10 [[(0,10,10,100,300)]]
           ltac:(repeat constructor; simpl; lia) ltac:(lia) ltac:(vm_compute; reflexivity)
           [(0,10,10,100,300)] ltac:(left; reflexivity)).
  left; reflexivity.
Defined.

(** C4 (termination), counterexample.  With page 100x10 and padding 5
    (positive page, non-negative padding) and one 1x1 image, the first
    shelf would start at [y = 5 = H - pad], so no shelf is tried, the page
    is empty and the outer [while i < n] loop never advances: the Python
    call runs forever. *)
Lemma termination_counterexample :
  fill_one_page 100 10 5 [(1,1,0)] = Ok ([], [(1,1,0)]) /\
  pack_images_shelf [(1,1,0)] 100 10 5 = Diverge.
Proof. split; vm_compute; reflexivity. Qed.

(** C4 (termination), amended.  When [pageHeight > 2*padding],
    [pack_images_shelf] terminates (it returns pages or raises); and every
    shelf step that succeeds places at least one image and consumes
    exactly the images it places, so there are at most [N] shelf steps
    for [N] images. *)
Theorem pack_terminates (sizes : list size) (page_w_px page_h_px padding : Z) :
  2 * padding < page_h_px ->
  pack_images_shelf sizes page_w_px page_h_px padding <> Diverge /\
  (forall y rest ps sh rest',
     shelf_step page_w_px padding y rest = Ok (ps, sh, rest') ->
     (1 <= length ps)%nat /\ (length ps + length rest' = length rest)%nat).
Proof.
  intros Hh. split.
  - exact (pack_loop_terminates page_w_px page_h_px padding _ sizes Hh (Nat.lt_succ_diag_r _)).
  - intros y rest ps sh rest'. apply shelf_step_progress.
Qed.

Lemma pack_terminates_witness :
  2 * 10 < 300 /\
  pack_images_shelf [(250,50,0); (250,50,1)] 300 300 10 <> Diverge.
Proof.
  split; [lia|].
  exact (proj1 (pack_terminates [(250,50,0); (250,50,1)] 300 300 10 ltac:(lia))).
Defined.

(** C5 (Scenario C), counterexample: five 250x50 images on a 300x300
    page with padding 10 do not give two pages. *)
Lemma scenario_C_counterexample :
  ~ (exists pages, pack_images_shelf [(250,50,0); (250,50,1); (250,50,2); (250,50,3); (250,50,4)]
                                     300 300 10 = Ok pages /\ length pages = 2%nat).
Proof. vm_compute. intros [pages [E L]]. injection E as <-. discriminate L. Qed.

(** C5 (Scenario C), amended: the five 250x50 images go on ONE page, one
    per shelf, at [y = 10, 70, 130, 190, 250].  The break only tests the
    start of the next shelf against [H - pad = 290]; the fifth shelf starts
    at 250 < 290 and its bottom edge reaches 300. *)
Theorem scenario_C :
  pack_images_shelf [(250,50,0); (250,50,1); (250,50,2); (250,50,3); (250,50,4)] 300 300 10 =
  Ok [[(0,10,10,250,50); (1,10,70,250,50); (2,10,130,250,50);
       (3,10,190,250,50); (4,10,250,250,50)]].
Proof. vm_compute. reflexivity. Qed.

(** C6 (configuration error), counterexample: with page width 20 and
    padding 10 (usable width 0) and one 0x5 image, nothing is raised and
    a zero-width image is placed. *)
Lemma config_error_counterexample :
  20 - 2 * 10 <= 0 /\
  pack_images_shelf [(0,5,0)] 20 100 10 = Ok [[(0,10,10,0,5)]].
Proof. split; [lia | vm_compute; reflexivity]. Qed.

(** C6 (configuration error), amended.  If the first size has a
    positive width, [pageWidth - 2*padding <= 0] and
    [pageHeight > 2*padding], then [pack_images_shelf] raises
    [RuntimeError] (the configuration error) before any placement is
    returned: the first image does not fit the first shelf, and the
    fallback finds the usable width non-positive. *)
Theorem pack_config_error w h idx (rest : list size) (page_w_px page_h_px padding : Z) :
  0 < w -> page_w_px - 2 * padding <= 0 -> 2 * padding < page_h_px ->
  pack_images_shelf ((w, h, idx) :: rest) page_w_px page_h_px padding = Raise RuntimeError.
Proof.
  intros Hw Hm Hh. unfold pack_images_shelf. simpl pack_loop.
  unfold fill_one_page. simpl fill_page.
  replace (padding <? page_h_px - padding) with true by (symmetry; apply Z.ltb_lt; lia).
  simpl. unfold shelf_step. simpl fill_shelf.
  replace (w + padding + padding <=? page_w_px) with false by (symmetry; apply Z.leb_gt; lia).
  assert (F : fallback page_w_px padding padding ((w, h, idx) :: rest) = Raise RuntimeError).
  { unfold fallback.
    replace (page_w_px - 2 * padding <=? 0) with true by (symmetry; apply Z.leb_le; lia).
    reflexivity. }
  cbv iota beta zeta. rewrite Z.eqb_refl, F. reflexivity.
Qed.

Lemma pack_config_error_witness :
  pack_images_shelf [(5,5,0); (3,4,1)] 20 100 10 = Raise RuntimeError.
Proof. apply (pack_config_error 5 5 0 [(3,4,1)] 20 100 10); lia. Defined.

(** C8 (Scenario A), counterexample: three 100x100 images on a 300x300
    page with padding 10 are not all put on the shelf at [y = 10]; the
    third does not go to [x = 230]. *)
Lemma scenario_A_counterexample :
  pack_images_shelf [(100,100,0); (100,100,1); (100,100,2)] 300 300 10 <>
  Ok [[(0,10,10,100,100); (1,120,10,100,100); (2,230,10,100,100)]].
Proof. vm_compute. discriminate. Qed.

(** C8 (Scenario A), amended: the first shelf holds the first two images
    at [x = 10, 120] ([100 + 230 + 10 = 340 > 300] rejects the third); the
    third starts a second shelf at [(10, 120)]; one page in total. *)
Theorem scenario_A :
  pack_images_shelf [(100,100,0); (100,100,1); (100,100,2)] 300 300 10 =
  Ok [[(0,10,10,100,100); (1,120,10,100,100); (2,10,120,100,100)]].
Proof. vm_compute. reflexivity. Qed.

(** C10 (fallback bound), the failing input: a 5x0 image is placed by the
    inner loop yet leaves [shelf_height = 0]; the fallback then reads
    [images_sizes[1]] of a one-element list and raises [IndexError]. *)
Theorem fallback_index_error :
  fill_shelf 300 10 10 10 0 [(5,0,0)] = ([(0,10,10,5,0)], 25, 0, []) /\
  pack_images_shelf [(5,0,0)] 300 300 10 = Raise IndexError.
Proof. split; vm_compute; reflexivity. Qed.

(** C7 (size normalisation), counterexample: a 10000x1 image with
    bounds 100x100 gets [scale = 0.01] and normalises to [(100, 0)]: the
    height [round(1 * 0.01) = 0] is not [>= 1]. *)
Lemma normalize_counterexample :
  normalize_size 10000 1 100 100 = Ok (100, 0).
Proof. vm_compute. reflexivity. Qed.

(** C7 (size normalisation), amended.  For positive natural sizes and
    positive bounds, the scale [min(1.0, max_w/w, max_h/h)] is at most
    [1.0]; the normalised size is
    [(round(w*scale), round(h*scale))] ([normalize_size]), each dimension
    [>= 0] but possibly [0]; the only exception it can raise is
    [OverflowError], and when all four integers are below [2^1022]
    (inside the binary64 range) it raises nothing and returns a size. *)
Theorem normalize_size_spec w h max_w max_h :
  0 < w -> 0 < h -> 0 < max_w -> 0 < max_h ->
  (forall scale, norm_scale w h max_w max_h = Ok scale -> SFleb scale float_one = true) /\
  (forall w2 h2, normalize_size w h max_w max_h = Ok (w2, h2) -> 0 <= w2 /\ 0 <= h2) /\
  (forall e, normalize_size w h max_w max_h = Raise e -> e = OverflowError) /\
  (w < 2 ^ 1022 -> h < 2 ^ 1022 -> max_w < 2 ^ 1022 -> max_h < 2 ^ 1022 ->
   exists w2 h2, normalize_size w h max_w max_h = Ok (w2, h2)).
Proof.
  intros Hw Hh Hmw Hmh. split; [|split; [|split]].
  - intros sc E. exact (proj2 (norm_scale_nonneg_le w h max_w max_h sc ltac:(lia) ltac:(lia) E)).
  - intros w2 h2. apply normalize_size_nonneg; lia.
  - apply normalize_size_only_overflow; lia.
  - intros Bw Bh Bmw Bmh. apply normalize_size_ok; lia.
Qed.

Lemma normalize_size_spec_witness :
  normalize_size 1000 333 280 280 = Ok (280, 93) /\ 0 <= 280 /\ 0 <= 93.
Proof.
  split; [vm_compute; reflexivity|].
  exact (proj1 (proj2 (normalize_size_spec 1000 333 280 280 ltac:(lia) ltac:(lia) ltac:(lia) ltac:(lia)))
           280 93 ltac:(vm_compute; reflexivity)).
Defined.

(** C9 (monotonic page growth), confirmed.  In the configuration of the
    program ([padding >= 0], [pageHeight > 2*padding], positive image
    sizes): whenever packing the
    height-sorted [L] and the height-sorted [L ++ [s]] both return pages,
    the second has at least as many pages as the first.  (The shelves of
    the sorted [L] are matched, in order, with shelves of the sorted
    [L ++ [s]] at least as tall.) *)
Theorem pages_monotone (L : list size) (s : size) (page_w_px page_h_px padding : Z) PL PX :
  Forall pos_size L -> pos_size s -> 0 <= padding -> 2 * padding < page_h_px ->
  pack_images_shelf (sort_by_h_desc L) page_w_px page_h_px padding = Ok PL ->
  pack_images_shelf (sort_by_h_desc (L ++ [s])) page_w_px page_h_px padding = Ok PX ->
  (length PL <= length PX)%nat.
Proof.
  intros HL Hs Hpad Hh EL EX. unfold pack_images_shelf in EL, EX.
  rewrite sort_by_h_desc_snoc in EX.
  destruct (pack_loop_fold page_w_px page_h_px padding Hh _ _ _ EL) as [TY [HTY CY]].
  destruct (pack_loop_fold page_w_px page_h_px padding Hh _ _ _ EX) as [TX [HTX CX]].
  assert (HD : dom TX TY).
  { apply (shelves_dom page_w_px padding Hpad _ _ HTX (sort_by_h_desc L) TY);
      [| |apply sort_by_h_desc_sorted|exact HTY].
    - apply Forall_insert_by_h; [exact Hs|]. apply sort_by_h_desc_Forall. exact HL.
    - apply sublist_insert_by_h. }
  assert (Hv : valid padding (0%nat, page_h_px - padding)) by (unfold valid; simpl; lia).
  pose proof (fold_dom page_h_px padding Hpad Hh _ _ HD _ _ Hv Hv
                (or_intror (conj eq_refl (Z.le_refl _)))) as Hle.
  unfold st_le in Hle. rewrite (CY 0%nat _ (Z.le_refl _)), (CX 0%nat _ (Z.le_refl _)) in Hle.
  simpl in Hle. lia.
Qed.

Lemma pages_monotone_witness :
  Nat.le (length ([[(0,10,10,100,100); (1,120,10,100,100)]] : list (list placement)))
         (length ([[(0,10,10,100,100); (1,120,10,100,100); (2,10,120,100,100)]]
                    : list (list placement))).
Proof.
  apply (pages_monotone [(100,100,0); (100,100,1)] (100,100,2) 300 300 10);
    [repeat constructor; simpl; lia | unfold pos_size; simpl; lia | lia | lia
    | vm_compute; reflexivity | vm_compute; reflexivity].
Defined.

(** ** Further properties of the packing *)

Lemma ForallOrdPairs_impl_in {A} (R S : A -> A -> Prop) l :
  (forall a b, In a l -> In b l -> R a b -> S a b) -> ForallOrdPairs R l -> ForallOrdPairs S l.
Proof.
  intros H Hl. revert H. induction Hl as [|a l Ha Hl IH]; intros H; constructor.
  - rewrite Forall_forall in Ha |- *. intros b Hb.
    apply H; [left; reflexivity | right; exact Hb | apply Ha; exact Hb].
  - apply IH. intros x z Hx Hz; apply H; right; assumption.
Qed.

Lemma pack_loop_empty W H pad fuel : pack_loop W H pad fuel [] = Ok [].
Proof. destruct fuel; reflexivity. Qed.

Section PackMore.

Variables page_w_px page_h_px padding : Z.

Lemma pack_loop_nonempty fuel rest pages :
  pack_loop page_w_px page_h_px padding fuel rest = Ok pages ->
  Forall (fun page => page <> []) pages.
Proof.
  revert rest pages. induction fuel as [|fuel IH]; intros rest pages E.
  - destruct rest; simpl in E; [injection E as <-; constructor | discriminate].
  - destruct rest as [|s rest0]; simpl in E; [injection E as <-; constructor|].
    apply bind_ok in E as [[pl r1] [F E]].
    destruct (Nat.eqb (length r1) (S (length rest0))) eqn:L; [discriminate|].
    apply bind_ok in E as [pages1 [P E]]. injection E as <-.
    constructor; [|exact (IH _ _ P)].
    intros ->. unfold fill_one_page in F. apply fill_page_ids in F.
    apply (f_equal (@length Z)) in F. simpl in F. rewrite !length_map in F.
    apply Nat.eqb_neq in L. exact (L F).
Qed.

Lemma length_le_flat_map (pages : list (list placement)) :
  Forall (fun page => page <> []) pages ->
  (length pages <= length (flat_map (map pl_idx) pages))%nat.
Proof.
  induction 1 as [|page pages Hp Hs IH]; simpl; [lia|].
  rewrite length_app, length_map. destruct page; [congruence|]. simpl; lia.
Qed.

Lemma fill_shelf_sizes y sx sh rest ps sx' sh' r :
  fill_shelf page_w_px padding y sx sh rest = (ps, sx', sh', r) ->
  map size_of ps ++ r = rest.
Proof.
  revert sx sh ps sx' sh' r.
  induction rest as [|[[w h] idx] rest IH]; simpl; intros sx sh ps sx' sh' r E.
  - injection E as <- <- <- <-; reflexivity.
  - destruct (w + sx + padding <=? page_w_px).
    + destruct (fill_shelf page_w_px padding y _ _ rest) as [[[ps0 sx0] sh0] r0] eqn:E0.
      injection E as <- <- <- <-. simpl. f_equal. eapply IH; eauto.
    + injection E as <- <- <- <-; reflexivity.
Qed.

Lemma shelf_step_sizes y s rest ps sh r :
  fits_width page_w_px padding s ->
  shelf_step page_w_px padding y (s :: rest) = Ok (ps, sh, r) ->
  map size_of ps ++ r = s :: rest.
Proof.
  destruct s as [[w h] idx]. unfold fits_width, sz_w, sz_h. intros [Hh Hw].
  unfold shelf_step. simpl.
  replace (w + padding + padding <=? page_w_px) with true by (symmetry; apply Z.leb_le; lia).
  replace (h >? 0) with true by (symmetry; apply Z.gtb_lt; lia).
  destruct (fill_shelf page_w_px padding y (padding + (w + padding)) h rest)
    as [[[ps0 sx0] sh0] r0] eqn:E0.
  destruct (fill_shelf_heights page_w_px padding _ _ _ _ _ _ _ _ E0) as [Hs _].
  replace (sh0 =? 0) with false by (symmetry; apply Z.eqb_neq; lia).
  intros E. injection E as <- <- <-. simpl. f_equal.
  exact (fill_shelf_sizes _ _ _ _ _ _ _ _ E0).
Qed.

Lemma fill_page_sizes fuel y rest ps r :
  Forall (fits_width page_w_px padding) rest ->
  fill_page page_w_px page_h_px padding fuel y rest = Ok (ps, r) ->
  map size_of ps ++ r = rest.
Proof.
  revert y rest ps r. induction fuel as [|fuel IH]; simpl; intros y rest ps r Hf E.
  - injection E as <- <-; reflexivity.
  - destruct (_ && _) eqn:C; [|injection E as <- <-; reflexivity].
    destruct rest as [|s rest0]; [rewrite andb_false_r in C; discriminate|]. clear C.
    apply bind_ok in E as [[[ps1 sh] r1] [S1 E]].
    pose proof (shelf_step_sizes _ _ _ _ _ _ (Forall_inv Hf) S1) as Q1.
    destruct (_ && _).
    + injection E as <- <-. exact Q1.
    + apply bind_ok in E as [[ps2 r2] [F2 E]]. injection E as <- <-.
      assert (Hr1 : Forall (fits_width page_w_px padding) r1).
      { rewrite <- Q1 in Hf. apply Forall_app in Hf. tauto. }
      rewrite map_app, <- app_assoc, (IH _ _ _ _ Hr1 F2). exact Q1.
Qed.

Lemma pack_loop_sizes fuel rest pages :
  Forall (fits_width page_w_px padding) rest ->
  pack_loop page_w_px page_h_px padding fuel rest = Ok pages ->
  map size_of (concat pages) = rest.
Proof.
  revert rest pages. induction fuel as [|fuel IH]; intros rest pages Hf E.
  - destruct rest; simpl in E; [injection E as <-; reflexivity | discriminate].
  - destruct rest as [|s rest0]; simpl in E; [injection E as <-; reflexivity|].
    apply bind_ok in E as [[pl r1] [F E]].
    destruct (Nat.eqb _ _); [discriminate|].
    apply bind_ok in E as [pages1 [P E]]. injection E as <-.
    unfold fill_one_page in F. pose proof (fill_page_sizes _ _ _ _ _ Hf F) as Q.
    assert (Hr1 : Forall (fits_width page_w_px padding) r1).
    { rewrite <- Q in Hf. apply Forall_app in Hf. tauto. }
    simpl. rewrite map_app, (IH _ _ Hr1 P). exact Q.
Qed.

Lemma fallback_y y rest p nh r :
  fallback page_w_px padding y rest = Ok (p, nh, r) -> pl_y p = y.
Proof.
  destruct rest as [|[[w h] idx] rest]; simpl; intros E; [discriminate|].
  destruct (_ <=? 0); [discriminate|].
  repeat (apply bind_ok in E; destruct E as [? [_ E]]).
  injection E as <- _ _. reflexivity.
Qed.

Hypothesis padding_pos : 0 < padding.

Lemma shelf_step_reading y rest ps sh r :
  Forall pos_size rest ->
  shelf_step page_w_px padding y rest = Ok (ps, sh, r) ->
  Forall (fun p => pl_y p = y) ps /\ ForallOrdPairs reading_before ps.
Proof.
  intros Hp. assert (Hpad : 0 <= padding) by lia. unfold shelf_step.
  destruct (fill_shelf page_w_px padding y padding 0 rest) as [[[ps0 sx0] sh0] r0] eqn:E0.
  destruct (fill_shelf_geom page_w_px padding Hpad _ _ _ _ _ _ _ _ Hp E0) as [_ [Hf Ho]].
  destruct (fill_shelf_heights page_w_px padding _ _ _ _ _ _ _ _ E0) as [_ Hin].
  destruct (sh0 =? 0) eqn:Z0; intros E.
  - apply Z.eqb_eq in Z0; subst sh0.
    apply bind_ok in E as [[[p nh] r2] [F E]]. injection E as <- _ _.
    destruct ps0 as [|p0 ps0]; [|inversion Hf as [|? ? Hp0]; lia].
    simpl. apply fallback_y in F. split; [constructor; [exact F | constructor]|].
    repeat constructor.
  - injection E as <- _ _. split.
    + eapply Forall_impl; [|exact Hf]. intros p Hq; apply Hq.
    + refine (ForallOrdPairs_impl_in _ _ _ _ Ho). intros a b Ha Hb H.
      rewrite Forall_forall in Hf, Hin, Hp.
      destruct (Hf a Ha) as [Ya _]. destruct (Hf b Hb) as [Yb _].
      destruct (Hin a Ha) as [_ Ia]. destruct (Hp _ Ia) as [Wa _]. simpl in Wa.
      right. split; lia.
Qed.

Lemma fill_page_reading fuel y rest ps r :
  Forall pos_size rest -> padding <= y ->
  fill_page page_w_px page_h_px padding fuel y rest = Ok (ps, r) ->
  Forall (fun p => y <= pl_y p) ps /\ ForallOrdPairs reading_before ps.
Proof.
  assert (Hpad : 0 <= padding) by lia.
  revert y rest ps r. induction fuel as [|fuel IH]; simpl; intros y rest ps r Hp Hy E.
  - injection E as <- <-; split; constructor.
  - destruct (_ && _); [|injection E as <- <-; split; constructor].
    apply bind_ok in E as [[[ps1 sh] r1] [S1 E]].
    destruct (shelf_step_reading _ _ _ _ _ Hp S1) as [Y1 O1].
    destruct (shelf_step_geom page_w_px padding Hpad _ _ _ _ _ Hp Hy S1) as [Hsh _].
    assert (Y1' : Forall (fun p => y <= pl_y p) ps1)
      by (eapply Forall_impl; [|exact Y1]; intros p Hq; cbv beta in Hq; lia).
    destruct (_ && _).
    + injection E as <- <-. split; assumption.
    + apply bind_ok in E as [[ps2 r2] [F2 E]]. injection E as <- <-.
      destruct (shelf_step_suffix page_w_px padding _ _ _ _ _ S1) as [pre Er1].
      assert (Hp1 : Forall pos_size r1) by (rewrite Er1 in Hp; exact (Forall_suffix _ _ _ Hp)).
      destruct (IH (y + sh + padding) r1 ps2 r2 Hp1 ltac:(lia) F2) as [Y2 O2].
      split.
      * apply Forall_app; split; [exact Y1'|].
        eapply Forall_impl; [|exact Y2]; intros p Hq; cbv beta in Hq; lia.
      * apply ForallOrdPairs_app; [exact O1 | exact O2 |].
        intros a b Ha Hb. rewrite Forall_forall in Y1, Y2.
        specialize (Y1 a Ha); specialize (Y2 b Hb). left; lia.
Qed.

Lemma pack_loop_reading fuel rest pages :
  Forall pos_size rest ->
  pack_loop page_w_px page_h_px padding fuel rest = Ok pages ->
  Forall (ForallOrdPairs reading_before) pages.
Proof.
  revert rest pages. induction fuel as [|fuel IH]; intros rest pages Hp E.
  - destruct rest; simpl in E; [injection E as <-; constructor | discriminate].
  - destruct rest as [|s rest0]; simpl in E; [injection E as <-; constructor|].
    apply bind_ok in E as [[pl r1] [F E]].
    destruct (Nat.eqb _ _); [discriminate|].
    apply bind_ok in E as [pages1 [P E]]. injection E as <-.
    unfold fill_one_page in F.
    destruct (fill_page_suffix page_w_px page_h_px padding _ _ _ _ _ F) as [pre Er1].
    assert (Hp1 : Forall pos_size r1) by (rewrite Er1 in Hp; exact (Forall_suffix _ _ _ Hp)).
    constructor; [exact (proj2 (fill_page_reading _ _ _ _ _ Hp (Z.le_refl _) F))|].
    exact (IH _ _ Hp1 P).
Qed.

End PackMore.

(** ** Further properties of the sort and the normalisation *)

Lemma Permutation_insert_by_h x l : Permutation (insert_by_h x l) (x :: l).
Proof.
  induction l as [|a l IH]; simpl; [reflexivity|].
  destruct (_ <=? _); [|reflexivity].
  eapply perm_trans; [apply perm_skip; exact IH | apply perm_swap].
Qed.

Lemma Permutation_sort_by_h_desc l : Permutation (sort_by_h_desc l) l.
Proof.
  induction l as [|s L IH] using rev_ind; [reflexivity|].
  rewrite sort_by_h_desc_snoc. eapply perm_trans; [apply Permutation_insert_by_h|].
  eapply perm_trans; [apply perm_skip; exact IH|]. apply Permutation_cons_append.
Qed.

Lemma filter_all_false {A} (f : A -> bool) l :
  (forall b, In b l -> f b = false) -> filter f l = [].
Proof.
  induction l as [|a l IH]; simpl; intros H; [reflexivity|].
  rewrite (H a (or_introl eq_refl)). apply IH. intros b Hb; apply H; right; exact Hb.
Qed.

Lemma filter_insert_by_h k x l :
  StronglySorted h_desc l ->
  filter (fun s => Z.eqb (sz_h s) k) (insert_by_h x l) =
  filter (fun s => Z.eqb (sz_h s) k) l ++ filter (fun s => Z.eqb (sz_h s) k) [x].
Proof.
  induction l as [|a l IH]; intros H; [reflexivity|].
  apply StronglySorted_inv in H as [Hl Ha].
  simpl insert_by_h. destruct (Z.leb_spec (sz_h x) (sz_h a)) as [Hxa|Hxa].
  - simpl filter. rewrite (IH Hl). destruct (sz_h a =? k); reflexivity.
  - destruct (Z.eqb_spec (sz_h x) k) as [Hk|Hk].
    + assert (E0 : filter (fun s => Z.eqb (sz_h s) k) (a :: l) = []).
      { apply filter_all_false. intros b Hb. apply Z.eqb_neq. destruct Hb as [<-|Hb]; [lia|].
        rewrite Forall_forall in Ha. specialize (Ha b Hb). unfold h_desc in Ha. lia. }
      simpl in E0 |- *. rewrite Hk, Z.eqb_refl, E0. reflexivity.
    + simpl filter. replace (sz_h x =? k) with false by (symmetry; apply Z.eqb_neq; exact Hk).
      rewrite app_nil_r. reflexivity.
Qed.

Lemma filter_sort_by_h_desc k l :
  filter (fun s => Z.eqb (sz_h s) k) (sort_by_h_desc l) = filter (fun s => Z.eqb (sz_h s) k) l.
Proof.
  induction l as [|s L IH] using rev_ind; [reflexivity|].
  rewrite sort_by_h_desc_snoc, filter_insert_by_h, IH, filter_app; [reflexivity|].
  apply sort_by_h_desc_sorted.
Qed.

Lemma binary_round_aux_no_nan sx mx ex lx :
  0 <= mx -> binary_round_aux prec emax sx mx ex lx <> S754_nan.
Proof.
  intros Hm. unfold binary_round_aux.
  destruct (shr_fexp prec emax mx ex lx) as [mrs' e'] eqn:E1.
  pose proof (shr_fexp_nonneg mx ex lx Hm) as H1. rewrite E1 in H1; simpl in H1.
  destruct (shr_fexp prec emax (round_nearest_even (shr_m mrs') (loc_of_shr_record mrs'))
                      e' loc_Exact) as [mrs'' e''] eqn:E2.
  pose proof (shr_fexp_nonneg _ e' loc_Exact (round_nearest_even_nonneg _
                 (loc_of_shr_record mrs') H1)) as H2.
  rewrite E2 in H2; simpl in H2.
  destruct (shr_m mrs'') as [|m|m]; simpl; [discriminate| |lia].
  destruct (e'' <=? _); discriminate.
Qed.

Lemma py_int_truediv_finite a b f : py_int_truediv a b = Ok f -> finite_sf f.
Proof.
  unfold py_int_truediv. destruct (b =? 0); [discriminate|].
  destruct (Z.abs a) as [|ma|ma]; intros E.
  - injection E as <-; exact I.
  - unfold SFdiv in E.
    destruct (SFdiv_core_binary prec emax (Z.pos ma) 0 (Z.pos (Z.to_pos (Z.abs b))) 0)
      as [[mz ez] lz] eqn:D.
    pose proof (SFdiv_core_nonneg _ _ _ _ _ _ _ (eq_refl _ : 0 < Z.pos ma)
                  (Pos2Z.is_pos _) D) as Hz.
    pose proof (binary_round_aux_no_nan (xorb (xorb (a <? 0) (b <? 0)) false) mz ez lz Hz) as N.
    destruct (binary_round_aux _ _ _ _ _ _); try discriminate; try (injection E as <-; exact I).
    contradiction.
  - injection E as <-; exact I.
Qed.

Lemma norm_scale_finite w h max_w max_h sc :
  norm_scale w h max_w max_h = Ok sc -> finite_sf sc.
Proof.
  unfold norm_scale. intros E.
  apply bind_ok in E as [sw [Ew E]]. apply bind_ok in E as [sh [Eh E]]. injection E as <-.
  assert (Hw : finite_sf sw).
  { destruct (w >? 0); [exact (py_int_truediv_finite _ _ _ Ew)|injection Ew as <-; exact I]. }
  assert (Hh : finite_sf sh).
  { destruct (h >? 0); [exact (py_int_truediv_finite _ _ _ Eh)|injection Eh as <-; exact I]. }
  unfold py_min2. destruct (SFltb sw float_one); destruct (SFltb sh _); first [exact Hh | exact Hw | exact I].
Qed.

Lemma zero_times_finite sc v : finite_sf sc -> bind (py_int_mul_float 0 sc) py_round = Ok v -> v = 0.
Proof.
  intros Hf. unfold py_int_mul_float. change (float_of_int 0) with (Ok (S754_zero false)). simpl.
  destruct sc as [s| | |s m e]; try contradiction; simpl; intros E; injection E as <-; reflexivity.
Qed.

(** ** Strings *)

Lemma str_app_assoc (a b c : string) : ((a ++ b) ++ c)%string = (a ++ (b ++ c))%string.
Proof. induction a as [|x a IH]; simpl; [reflexivity|]. rewrite IH; reflexivity. Qed.

Lemma str_app_nil_r (a : string) : (a ++ "")%string = a.
Proof. induction a as [|x a IH]; simpl; [reflexivity|]. rewrite IH; reflexivity. Qed.

Lemma str_length_app (a b : string) :
  String.length (a ++ b) = (String.length a + String.length b)%nat.
Proof. induction a as [|x a IH]; simpl; [reflexivity|]. rewrite IH; reflexivity. Qed.

Lemma str_app_inv_l (p a b : string) : (p ++ a)%string = (p ++ b)%string -> a = b.
Proof. induction p as [|x p IH]; simpl; intros H; [exact H|]. injection H as H. exact (IH H). Qed.

Lemma str_app_inv_r (a b c : string) : (a ++ c)%string = (b ++ c)%string -> a = b.
Proof.
  intros H. assert (L : String.length a = String.length b).
  { apply (f_equal String.length) in H. rewrite !str_length_app in H. lia. }
  revert b H L. induction a as [|x a IH]; intros [|y b] H L; simpl in *; try discriminate;
    [reflexivity|]. injection H as -> H. f_equal. apply IH; [exact H | lia].
Qed.

Lemma str_map_app f (a b : string) : str_map f (a ++ b) = (str_map f a ++ str_map f b)%string.
Proof. induction a as [|x a IH]; simpl; [reflexivity|]. rewrite IH; reflexivity. Qed.

Lemma substring_app_l (a b : string) m :
  substring (String.length a) m (a ++ b) = substring 0 m b.
Proof. induction a as [|x a IH]; simpl; [reflexivity|]. destruct m; exact IH. Qed.

Lemma substring_full (b : string) : substring 0 (String.length b) b = b.
Proof. induction b as [|x b IH]; simpl; [reflexivity|]. rewrite IH; reflexivity. Qed.

Lemma str_endswith_app (a b : string) : str_endswith (a ++ b) b = true.
Proof.
  unfold str_endswith. rewrite str_length_app.
  replace (String.length a + String.length b - String.length b)%nat with (String.length a) by lia.
  rewrite substring_app_l, substring_full, String.eqb_refl.
  apply andb_true_intro; split; [apply Nat.leb_le; lia | reflexivity].
Qed.

Lemma ascii_compare_refl (c : ascii) : Ascii.compare c c = Eq.
Proof. unfold Ascii.compare. apply N.compare_refl. Qed.

Lemma str_compare_app_l (p a b : string) :
  String.compare (p ++ a) (p ++ b) = String.compare a b.
Proof. induction p as [|x p IH]; simpl; [reflexivity|]. rewrite ascii_compare_refl. exact IH. Qed.

Lemma str_leb_trans (a b c : string) :
  String.leb a b = true -> String.leb b c = true -> String.leb a c = true.
Proof.
  unfold String.leb.
  revert b c. induction a as [|x a IH]; intros [|y b] [|z c]; simpl; try discriminate; auto.
  unfold Ascii.compare.
  destruct (N.compare_spec (N_of_ascii x) (N_of_ascii y)) as [Hxy|Hxy|Hxy];
  destruct (N.compare_spec (N_of_ascii y) (N_of_ascii z)) as [Hyz|Hyz|Hyz];
  destruct (N.compare_spec (N_of_ascii x) (N_of_ascii z)) as [Hxz|Hxz|Hxz];
  try discriminate; try lia; auto.
  apply IH.
Qed.

Lemma str_leb_total_false (a b : string) : String.leb a b = false -> String.leb b a = true.
Proof. intros H. destruct (String.leb_total a b) as [H'|H']; congruence. Qed.

Lemma Forall_insert_str (P : string -> Prop) x l :
  P x -> Forall P l -> Forall P (insert_str x l).
Proof.
  intros Hx Hl. induction Hl as [|a l Ha Hl IH]; simpl; [repeat constructor; exact Hx|].
  destruct (String.leb a x); repeat constructor; auto.
Qed.

Lemma sorted_insert_str x l :
  StronglySorted (fun a b => String.leb a b = true) l ->
  StronglySorted (fun a b => String.leb a b = true) (insert_str x l).
Proof.
  induction l as [|a l IH]; simpl; intros H; [repeat constructor|].
  apply StronglySorted_inv in H as [Hl Ha].
  destruct (String.leb a x) eqn:Hax.
  - constructor; [exact (IH Hl)|]. apply Forall_insert_str; assumption.
  - apply str_leb_total_false in Hax.
    constructor; [constructor; assumption|]. constructor; [exact Hax|].
    eapply Forall_impl; [|exact Ha]. intros b Hb. exact (str_leb_trans _ _ _ Hax Hb).
Qed.

Lemma py_sorted_str_sorted l :
  StronglySorted (fun a b => String.leb a b = true) (py_sorted_str l).
Proof.
  unfold py_sorted_str.
  assert (H : StronglySorted (fun a b => String.leb a b = true) (@nil string)) by constructor.
  revert H. generalize (@nil string). induction l as [|x l IH]; simpl; intros acc H; [exact H|].
  apply IH. apply sorted_insert_str. exact H.
Qed.

Lemma Permutation_insert_str x l : Permutation (insert_str x l) (x :: l).
Proof.
  induction l as [|a l IH]; simpl; [reflexivity|].
  destruct (String.leb a x); [|reflexivity].
  eapply perm_trans; [apply perm_skip; exact IH | apply perm_swap].
Qed.

Lemma Permutation_py_sorted_str l : Permutation (py_sorted_str l) l.
Proof.
  unfold py_sorted_str. induction l as [|x l IH] using rev_ind; [reflexivity|].
  rewrite fold_left_app. simpl.
  eapply perm_trans; [apply Permutation_insert_str|].
  eapply perm_trans; [apply perm_skip; exact IH|]. apply Permutation_cons_append.
Qed.

Lemma Permutation_filter' {A} (f : A -> bool) l l' :
  Permutation l l' -> Permutation (filter f l) (filter f l').
Proof.
  induction 1 as [|x l l' _ IH|x y l|l l' l'' _ IH1 _ IH2]; simpl.
  - reflexivity.
  - destruct (f x); [apply perm_skip|]; exact IH.
  - destruct (f x), (f y); try reflexivity; apply perm_swap.
  - eapply perm_trans; eassumption.
Qed.

Lemma StronglySorted_filter' {A} (R : A -> A -> Prop) (f : A -> bool) l :
  StronglySorted R l -> StronglySorted R (filter f l).
Proof.
  induction 1 as [|a l Hl IH Ha]; simpl; [constructor|].
  destruct (f a); [|exact IH]. constructor; [exact IH|].
  rewrite Forall_forall in Ha |- *. intros b Hb. apply filter_In in Hb. apply Ha; tauto.
Qed.

Lemma StronglySorted_map_in {A B} (R : A -> A -> Prop) (S : B -> B -> Prop) (g : A -> B) l :
  (forall a b, In a l -> In b l -> R a b -> S (g a) (g b)) ->
  StronglySorted R l -> StronglySorted S (map g l).
Proof.
  intros H Hl. revert H. induction Hl as [|a l Hl IH Ha]; intros H; simpl; constructor.
  - apply IH. intros x y Hx Hy; apply H; right; assumption.
  - rewrite Forall_forall in Ha |- *. intros b Hb. apply in_map_iff in Hb as [b' [<- Hb']].
    apply H; [left; reflexivity | right; exact Hb' | apply Ha; exact Hb'].
Qed.

Lemma path_join_prefix (folder f : string) :
  String.prefix "/" f = false -> path_join folder f = (join_prefix folder ++ f)%string.
Proof.
  intros H. unfold path_join, join_prefix. rewrite H.
  destruct (_ || _); [reflexivity|]. rewrite str_app_assoc. reflexivity.
Qed.

Lemma is_image_name_png (a : string) : is_image_name (a ++ ".png") = true.
Proof.
  unfold is_image_name, str_lower. rewrite str_map_app. simpl existsb.
  rewrite str_endswith_app. reflexivity.
Qed.

(** Decimal strings *)

Lemma uint_of_string_zeros k s d :
  NilEmpty.uint_of_string s = Some d ->
  exists d', NilEmpty.uint_of_string (zeros k ++ s) = Some d' /\ N.of_uint d' = N.of_uint d.
Proof.
  intros H. induction k as [|k [d' [E1 E2]]]; simpl; [exists d; auto|].
  rewrite E1. exists (Decimal.D0 d'). split; [reflexivity|]. exact E2.
Qed.

Lemma py_format_03d_value n :
  0 <= n ->
  exists d, NilEmpty.uint_of_string (py_format_03d n) = Some d /\ N.of_uint d = Z.to_N n.
Proof.
  intros Hn. unfold py_format_03d.
  replace (n <? 0) with false by (symmetry; apply Z.ltb_ge; lia). simpl String.append.
  rewrite Z.abs_eq by lia. unfold py_str_nonneg.
  destruct (uint_of_string_zeros (3 - (0 + String.length (NilEmpty.string_of_uint (N.to_uint (Z.to_N n)))))
              _ _ (NilEmpty.usu (N.to_uint (Z.to_N n)))) as [d [E1 E2]].
  exists d. split; [exact E1|]. rewrite E2. apply DecimalN.Unsigned.of_to.
Qed.

Lemma py_format_03d_inj n m : 0 <= n -> 0 <= m -> py_format_03d n = py_format_03d m -> n = m.
Proof.
  intros Hn Hm E. destruct (py_format_03d_value n Hn) as [d [E1 E2]].
  destruct (py_format_03d_value m Hm) as [d' [E1' E2']].
  rewrite E in E1. rewrite E1 in E1'. injection E1' as ->. lia.
Qed.

Lemma py_str_int_inj n m : 0 <= n -> 0 <= m -> py_str_int n = py_str_int m -> n = m.
Proof.
  intros Hn Hm. unfold py_str_int.
  replace (n <? 0) with false by (symmetry; apply Z.ltb_ge; lia).
  replace (m <? 0) with false by (symmetry; apply Z.ltb_ge; lia).
  unfold py_str_nonneg. intros E.
  apply (f_equal NilEmpty.uint_of_string) in E. rewrite !NilEmpty.usu in E. injection E as E.
  apply DecimalN.Unsigned.to_uint_inj in E. lia.
Qed.

(** Sequences of names *)

Lemma StronglySorted_map_seq {A} (R : A -> A -> Prop) (f : nat -> A) s n :
  (forall i j, (s <= i)%nat -> (i < j)%nat -> (j < s + n)%nat -> R (f i) (f j)) ->
  StronglySorted R (map f (seq s n)).
Proof.
  revert s. induction n as [|n IH]; intros s H; simpl; constructor.
  - apply IH. intros i j Hi Hij Hj. apply H; lia.
  - rewrite Forall_forall. intros b Hb. apply in_map_iff in Hb as [j [<- Hj]].
    apply in_seq in Hj. apply H; lia.
Qed.

Lemma StronglySorted_map_seq_inv {A} (R : A -> A -> Prop) (f : nat -> A) s n i j :
  StronglySorted R (map f (seq s n)) ->
  (s <= i)%nat -> (i < j)%nat -> (j < s + n)%nat -> R (f i) (f j).
Proof.
  revert s. induction n as [|n IH]; intros s H Hi Hij Hj; [lia|].
  simpl in H. apply StronglySorted_inv in H as [H1 H2].
  destruct (Nat.eq_dec i s) as [->|Hne].
  - rewrite Forall_forall in H2. apply H2. apply in_map. apply in_seq. lia.
  - apply (IH (S s)); [exact H1 | lia | lia | lia].
Qed.

Lemma NoDup_map_seq {A} (f : nat -> A) s n :
  (forall i j, f i = f j -> i = j) -> NoDup (map f (seq s n)).
Proof.
  intros Hf. revert s. induction n as [|n IH]; intros s; simpl; constructor; [|apply IH].
  intros Hin. apply in_map_iff in Hin as [j [E Hj]]. apply Hf in E. subst. apply in_seq in Hj. lia.
Qed.

Lemma three_digits_check :
  forallb (fun n => String.eqb (py_format_03d (Z.of_nat n)) (three_digits (Z.of_nat n)))
    (seq 0 1000) = true.
Proof. vm_compute. reflexivity. Qed.

Lemma py_format_03d_three i : 0 <= i <= 999 -> py_format_03d i = three_digits i.
Proof.
  intros Hi. pose proof three_digits_check as C. rewrite forallb_forall in C.
  specialize (C (Z.to_nat i)). rewrite Z2Nat.id in C by lia.
  apply String.eqb_eq, C, in_seq. lia.
Qed.

Lemma digit_char_check :
  forallb (fun a => forallb (fun b =>
    match Ascii.compare (digit_char (Z.of_nat a)) (digit_char (Z.of_nat b)),
          Z.compare (Z.of_nat a) (Z.of_nat b) with
    | Lt, Lt | Eq, Eq | Gt, Gt => true
    | _, _ => false
    end) (seq 0 10)) (seq 0 10) = true.
Proof. vm_compute. reflexivity. Qed.

Lemma digit_char_compare a b :
  0 <= a <= 9 -> 0 <= b <= 9 -> Ascii.compare (digit_char a) (digit_char b) = Z.compare a b.
Proof.
  intros Ha Hb. pose proof digit_char_check as C. rewrite forallb_forall in C.
  specialize (C (Z.to_nat a) ltac:(apply in_seq; lia)). rewrite forallb_forall in C.
  specialize (C (Z.to_nat b) ltac:(apply in_seq; lia)). rewrite !Z2Nat.id in C by lia.
  destruct (Ascii.compare _ _), (Z.compare a b); congruence.
Qed.

Lemma three_digits_lt i j s t :
  0 <= i -> i < j -> j <= 999 ->
  String.compare (three_digits i ++ s) (three_digits j ++ t) = Lt.
Proof.
  intros Hi Hij Hj. unfold three_digits. cbn [String.append String.compare].
  assert (Di : i = 10 * (i / 10) + i mod 10) by (apply Z.div_mod; lia).
  assert (Dj : j = 10 * (j / 10) + j mod 10) by (apply Z.div_mod; lia).
  assert (Di' : i / 10 = 10 * (i / 100) + (i / 10) mod 10).
  { replace (i / 100) with (i / 10 / 10) by (rewrite Z.div_div by lia; reflexivity). apply Z.div_mod; lia. }
  assert (Dj' : j / 10 = 10 * (j / 100) + (j / 10) mod 10).
  { replace (j / 100) with (j / 10 / 10) by (rewrite Z.div_div by lia; reflexivity). apply Z.div_mod; lia. }
  pose proof (Z.mod_pos_bound i 10 ltac:(lia)). pose proof (Z.mod_pos_bound j 10 ltac:(lia)).
  pose proof (Z.mod_pos_bound (i / 10) 10 ltac:(lia)).
  pose proof (Z.mod_pos_bound (j / 10) 10 ltac:(lia)).
  assert (0 <= i / 100 <= 9) by (Z.div_mod_to_equations; lia).
  assert (0 <= j / 100 <= 9) by (Z.div_mod_to_equations; lia).
  rewrite !digit_char_compare by lia.
  destruct (Z.compare_spec (i / 100) (j / 100)); [|reflexivity|lia].
  destruct (Z.compare_spec ((i / 10) mod 10) ((j / 10) mod 10)); [|reflexivity|lia].
  destruct (Z.compare_spec (i mod 10) (j mod 10)); [lia|reflexivity|lia].
Qed.

Lemma page_file_name_split out i :
  page_file_name out i = (join_prefix out ++ ("page_" ++ (py_format_03d i ++ ".jpg")))%string.
Proof. unfold page_file_name. apply path_join_prefix. reflexivity. Qed.

Lemma page_file_name_inj out i j :
  0 <= i -> 0 <= j -> page_file_name out i = page_file_name out j -> i = j.
Proof.
  intros Hi Hj E. rewrite !page_file_name_split in E.
  apply str_app_inv_l in E. apply (str_app_inv_l "page_") in E.
  apply str_app_inv_r in E. exact (py_format_03d_inj i j Hi Hj E).
Qed.

Lemma sample_base_name_inj i j : 0 <= i -> 0 <= j -> sample_base_name i = sample_base_name j -> i = j.
Proof.
  intros Hi Hj E. unfold sample_base_name in E.
  apply (str_app_inv_l "sample_") in E. apply str_app_inv_r in E.
  apply py_str_int_inj in E; lia.
Qed.

Lemma sample_file_name_split dir i :
  sample_file_name dir i = (join_prefix dir ++ sample_base_name i)%string.
Proof. unfold sample_file_name. apply path_join_prefix. reflexivity. Qed.

Lemma sample_base_name_png i : is_image_name (sample_base_name i) = true.
Proof.
  unfold sample_base_name. rewrite <- str_app_assoc. apply is_image_name_png.
Qed.

(** Page size *)

Lemma page_px_check page :
  forallb (fun d => outcome_pair_eqb (page_px page (Z.of_nat d)) (page_px_exact page (Z.of_nat d)))
    (seq 0 2401) = true ->
  forall dpi, 0 <= dpi <= 2400 -> page_px page dpi = Ok (page_px_exact page dpi).
Proof.
  intros C dpi Hd. rewrite forallb_forall in C.
  specialize (C (Z.to_nat dpi) ltac:(apply in_seq; lia)). rewrite Z2Nat.id in C by lia.
  destruct (page_px page dpi) as [[a b]| |]; try discriminate.
  apply andb_prop in C as [C1 C2]. apply Z.eqb_eq in C1, C2.
  destruct (page_px_exact page dpi); simpl in *; subst; reflexivity.
Qed.

Lemma page_px_A4_range : forall dpi, 0 <= dpi <= 2400 -> page_px "A4" dpi = Ok (page_px_exact "A4" dpi).
Proof. apply page_px_check. vm_compute. reflexivity. Qed.

Lemma page_px_LETTER_range :
  forall dpi, 0 <= dpi <= 2400 -> page_px "LETTER" dpi = Ok (page_px_exact "LETTER" dpi).
Proof. apply page_px_check. vm_compute. reflexivity. Qed.

Lemma page_px_cases page dpi :
  page_px page dpi = page_px (if String.eqb (str_upper page) "LETTER" then "LETTER" else "A4") dpi
  /\ page_px_exact page dpi
     = page_px_exact (if String.eqb (str_upper page) "LETTER" then "LETTER" else "A4") dpi.
Proof.
  unfold page_px, page_px_exact, page_inches. simpl assoc_get.
  destruct (String.eqb (str_upper page) "LETTER") eqn:EL.
  - apply String.eqb_eq in EL. rewrite EL. split; reflexivity.
  - destruct (String.eqb (str_upper page) "A4"); split; reflexivity.
Qed.

(** Main pipeline *)

Lemma main_sizes_from_idx i dims W H sizes :
  main_sizes_from i dims W H = Ok sizes ->
  map sz_idx sizes = map (fun k => i + Z.of_nat k) (seq 0 (length dims)).
Proof.
  revert i sizes. induction dims as [|[w h] dims IH]; intros i sizes E; simpl in E.
  - injection E as <-. reflexivity.
  - apply bind_ok in E as [[w2 h2] [_ E]]. apply bind_ok in E as [sz [S E]].
    injection E as <-. simpl. rewrite (IH _ _ S).
    f_equal; [lia|]. rewrite <- seq_shift, map_map. apply map_ext. intros k. lia.
Qed.

Lemma main_layout_idx dims W H pages :
  main_layout dims W H = Ok pages ->
  Permutation (flat_map (map pl_idx) pages) (map Z.of_nat (seq 0 (length dims))).
Proof.
  unfold main_layout, pack_images_shelf. intros E.
  apply bind_ok in E as [sizes [S E]]. apply pack_loop_ids in E. rewrite E.
  apply main_sizes_from_idx in S.
  replace (map Z.of_nat (seq 0 (length dims))) with (map sz_idx sizes)
    by (rewrite S; apply map_ext; intros; lia).
  apply Permutation_map, Permutation_sort_by_h_desc.
Qed.

Lemma py_list_get_in_range {A} (l : list A) i :
  0 <= i < Z.of_nat (length l) -> exists a, py_list_get l i = Ok a.
Proof.
  intros Hi. unfold py_list_get.
  replace ((0 <=? i) && (i <? Z.of_nat (length l))) with true
    by (symmetry; apply andb_true_intro; split; [apply Z.leb_le | apply Z.ltb_lt]; lia).
  destruct (nth_error l (Z.to_nat i)) eqn:E; [eexists; reflexivity|].
  apply nth_error_None in E. lia.
Qed.

Section ComposeFacts.

Variable image : Type.
Variable new_page : Z -> Z -> outcome image.
Variable flatten : image -> outcome image.
Variable resize : image -> Z -> Z -> outcome image.
Variable paste : image -> image -> Z -> Z -> outcome image.

Lemma compose_pages_len pil_images pages page_px composed :
  compose_pages image new_page flatten resize paste pil_images pages page_px = Ok composed ->
  length composed = length pages.
Proof.
  revert composed. induction pages as [|pl pages IH]; intros composed E; simpl in E.
  - injection E as <-. reflexivity.
  - apply bind_ok in E as [pg [_ E]]. apply bind_ok in E as [pg' [_ E]].
    apply bind_ok in E as [c [C E]]. injection E as <-. simpl. rewrite (IH _ C). reflexivity.
Qed.

Hypothesis new_page_ok : forall w h, new_page w h <> Raise IndexError.
Hypothesis flatten_ok : forall im, flatten im <> Raise IndexError.
Hypothesis resize_ok : forall im w h, resize im w h <> Raise IndexError.
Hypothesis paste_ok : forall pg im x y, paste pg im x y <> Raise IndexError.

Lemma bind_no_index_error {A B} (m : outcome A) (k : A -> outcome B) :
  m <> Raise IndexError -> (forall a, k a <> Raise IndexError) -> bind m k <> Raise IndexError.
Proof. destruct m; simpl; [auto | congruence | congruence]. Qed.

Lemma compose_placements_no_index_error pil_images page placements :
  Forall (fun p => 0 <= pl_idx p < Z.of_nat (length pil_images)) placements ->
  compose_placements image flatten resize paste pil_images page placements <> Raise IndexError.
Proof.
  intros H. revert page. induction H as [|[[[[idx x] y] w] h] ps Hp _ IH]; intros page; simpl.
  - discriminate.
  - destruct (py_list_get_in_range pil_images idx Hp) as [im E]. rewrite E. simpl.
    apply bind_no_index_error; [apply flatten_ok|]. intros fl.
    apply bind_no_index_error; [apply resize_ok|]. intros rs.
    apply bind_no_index_error; [apply paste_ok|]. intros pg. apply IH.
Qed.

Lemma compose_pages_no_index_error pil_images pages page_px :
  Forall (Forall (fun p => 0 <= pl_idx p < Z.of_nat (length pil_images))) pages ->
  compose_pages image new_page flatten resize paste pil_images pages page_px <> Raise IndexError.
Proof.
  induction 1 as [|pl pages Hpl _ IH]; simpl; [discriminate|].
  apply bind_no_index_error; [apply new_page_ok|]. intros pg.
  apply bind_no_index_error; [apply compose_placements_no_index_error; exact Hpl|]. intros pg'.
  apply bind_no_index_error; [exact IH|]. intros c. discriminate.
Qed.

End ComposeFacts.

Lemma main_layout_idx_range dims W H pages :
  main_layout dims W H = Ok pages ->
  Forall (Forall (fun p => 0 <= pl_idx p < Z.of_nat (length dims))) pages.
Proof.
  intros E. apply main_layout_idx in E. rewrite Forall_forall. intros pl Hpl.
  rewrite Forall_forall. intros p Hp.
  assert (Hin : In (pl_idx p) (map Z.of_nat (seq 0 (length dims)))).
  { eapply Permutation_in; [exact E|]. apply in_flat_map. exists pl. split; [exact Hpl|].
    apply in_map. exact Hp. }
  apply in_map_iff in Hin as [k [<- Hk]]. apply in_seq in Hk. lia.
Qed.

(** * Further properties of the program *)

(** X1: every page returned by [pack_images_shelf] holds at least one
    placement. *)
Theorem pack_pages_nonempty (sizes : list size) (page_w_px page_h_px padding : Z) pages :
  pack_images_shelf sizes page_w_px page_h_px padding = Ok pages ->
  Forall (fun page => page <> []) pages.
Proof. unfold pack_images_shelf. apply pack_loop_nonempty. Qed.

Lemma pack_pages_nonempty_witness :
  pack_images_shelf [(50, 40, 0); (30, 20, 1)] 200 200 5 = Ok [[(0, 5, 5, 50, 40); (1, 60, 5, 30, 20)]]
  /\ Forall (fun page => page <> []) [[(0, 5, 5, 50, 40); (1, 60, 5, 30, 20)]].
Proof.
  split; [vm_compute; reflexivity|].
  apply (pack_pages_nonempty [(50, 40, 0); (30, 20, 1)] 200 200 5). vm_compute. reflexivity.
Defined.

(** X2: when [pack_images_shelf] returns, there are at most as many
    pages as images, and no page exactly when there is no image. *)
Theorem pack_page_count (sizes : list size) (page_w_px page_h_px padding : Z) pages :
  pack_images_shelf sizes page_w_px page_h_px padding = Ok pages ->
  (length pages <= length sizes)%nat /\ (pages = [] <-> sizes = []).
Proof.
  unfold pack_images_shelf. intros E.
  pose proof (pack_loop_nonempty _ _ _ _ _ _ E) as N.
  pose proof (pack_loop_ids _ _ _ _ _ _ E) as I.
  pose proof (length_le_flat_map _ N) as L. rewrite I, length_map in L.
  split; [exact L|]. split.
  - intros ->. simpl in I. symmetry in I. apply map_eq_nil in I. exact I.
  - intros ->. rewrite pack_loop_empty in E. injection E as <-. reflexivity.
Qed.

Lemma pack_page_count_witness :
  pack_images_shelf [(50, 40, 0); (30, 20, 1)] 200 200 5 = Ok [[(0, 5, 5, 50, 40); (1, 60, 5, 30, 20)]]
  /\ le (length [[(0, 5, 5, 50, 40); (1, 60, 5, 30, 20)]]) (length [(50, 40, 0); (30, 20, 1)])
  /\ ([[(0, 5, 5, 50, 40); (1, 60, 5, 30, 20)]] = [] <-> [(50, 40, 0); (30, 20, 1)] = []).
Proof.
  split; [vm_compute; reflexivity|].
  apply (pack_page_count [(50, 40, 0); (30, 20, 1)] 200 200 5). vm_compute. reflexivity.
Defined.

(** X3: when every image has a positive height and fits the page width
    with its two paddings, the placements of the pages, read page by
    page, are the input images in their input order, each with its own
    width, height and index. *)
Theorem pack_keeps_sizes (sizes : list size) (page_w_px page_h_px padding : Z) pages :
  Forall (fits_width page_w_px padding) sizes ->
  pack_images_shelf sizes page_w_px page_h_px padding = Ok pages ->
  map size_of (concat pages) = sizes.
Proof. unfold pack_images_shelf. apply pack_loop_sizes. Qed.

Lemma pack_keeps_sizes_witness :
  Forall (fits_width 200 5) [(50, 40, 0); (30, 20, 1)]
  /\ pack_images_shelf [(50, 40, 0); (30, 20, 1)] 200 200 5 = Ok [[(0, 5, 5, 50, 40); (1, 60, 5, 30, 20)]]
  /\ map size_of (concat [[(0, 5, 5, 50, 40); (1, 60, 5, 30, 20)]]) = [(50, 40, 0); (30, 20, 1)].
Proof.
  assert (F : Forall (fits_width 200 5) [(50, 40, 0); (30, 20, 1)]).
  { repeat (apply Forall_cons || apply Forall_nil); unfold fits_width, sz_w, sz_h; lia. }
  split; [exact F|]. split; [vm_compute; reflexivity|].
  apply (pack_keeps_sizes [(50, 40, 0); (30, 20, 1)] 200 200 5); [exact F|].
  vm_compute. reflexivity.
Defined.

(** X4: with a positive padding and images of positive sizes, the
    placements of each page are in reading order: each one is on a
    higher shelf than the next, or on the same shelf to its left. *)
Theorem pack_reading_order (sizes : list size) (page_w_px page_h_px padding : Z) pages :
  0 < padding ->
  Forall pos_size sizes ->
  pack_images_shelf sizes page_w_px page_h_px padding = Ok pages ->
  Forall (ForallOrdPairs reading_before) pages.
Proof.
  unfold pack_images_shelf. intros Hp Hs E. exact (pack_loop_reading _ _ _ Hp _ _ _ Hs E).
Qed.

Lemma pack_reading_order_witness :
  0 < 5 /\ Forall pos_size [(50, 40, 0); (30, 20, 1)]
  /\ pack_images_shelf [(50, 40, 0); (30, 20, 1)] 200 200 5 = Ok [[(0, 5, 5, 50, 40); (1, 60, 5, 30, 20)]]
  /\ Forall (ForallOrdPairs reading_before) [[(0, 5, 5, 50, 40); (1, 60, 5, 30, 20)]].
Proof.
  assert (F : Forall pos_size [(50, 40, 0); (30, 20, 1)]).
  { repeat (apply Forall_cons || apply Forall_nil); unfold pos_size, sz_w, sz_h; lia. }
  split; [lia|]. split; [exact F|]. split; [vm_compute; reflexivity|].
  apply (pack_reading_order [(50, 40, 0); (30, 20, 1)] 200 200 5); [lia | exact F |].
  vm_compute. reflexivity.
Defined.

(** X5: the sort in [main] returns a rearrangement of its input, in
    non-increasing order of height. *)
Theorem sort_by_h_desc_spec (l : list size) :
  Permutation (sort_by_h_desc l) l /\ StronglySorted h_desc (sort_by_h_desc l).
Proof. split; [apply Permutation_sort_by_h_desc | apply sort_by_h_desc_sorted]. Qed.

(** X6: the sort is stable: the images of any one height keep their
    input order. *)
Theorem sort_by_h_desc_stable (k : Z) (l : list size) :
  filter (fun s => Z.eqb (sz_h s) k) (sort_by_h_desc l) = filter (fun s => Z.eqb (sz_h s) k) l.
Proof. apply filter_sort_by_h_desc. Qed.

(** X7: the normalisation keeps a zero side at zero: an image of width
    0 (height 0) gets width 0 (height 0). *)
Theorem normalize_size_zero_side (w h max_w max_h w2 h2 : Z) :
  normalize_size w h max_w max_h = Ok (w2, h2) ->
  (w = 0 -> w2 = 0) /\ (h = 0 -> h2 = 0).
Proof.
  unfold normalize_size. intros E.
  apply bind_ok in E as [sc [S E]]. pose proof (norm_scale_finite _ _ _ _ _ S) as F.
  apply bind_ok in E as [fw [Fw E]]. apply bind_ok in E as [w2' [W2 E]].
  apply bind_ok in E as [fh [Fh E]]. apply bind_ok in E as [h2' [H2 E]].
  injection E as <- <-. split; intros ->; apply (zero_times_finite sc); try exact F.
  - rewrite Fw. exact W2.
  - rewrite Fh. exact H2.
Qed.

Lemma normalize_size_zero_side_witness :
  normalize_size 0 50 100 100 = Ok (0, 50) /\ (0 = 0 -> 0 = 0) /\ (50 = 0 -> 50 = 0).
Proof.
  split; [vm_compute; reflexivity|]. apply (normalize_size_zero_side 0 50 100 100). vm_compute. reflexivity.
Defined.

(** X8: [list_images] returns the names of the listing that end in an
    image extension (in any case), each joined to the folder, one path
    per such name. *)
Theorem list_images_members (folder : string) (listing : list string) :
  (forall p, In p (list_images folder listing) <->
     exists f, In f listing /\ is_image_name f = true /\ p = path_join folder f)
  /\ length (list_images folder listing) = length (filter is_image_name listing).
Proof.
  split.
  - intros p. unfold list_images. rewrite in_map_iff. split.
    + intros [f [<- Hf]]. apply filter_In in Hf as [Hf Hi]. exists f.
      split; [|split; [exact Hi | reflexivity]].
      eapply Permutation_in; [apply Permutation_py_sorted_str | exact Hf].
    + intros [f [Hf [Hi ->]]]. exists f. split; [reflexivity|]. apply filter_In.
      split; [|exact Hi]. eapply Permutation_in; [symmetry; apply Permutation_py_sorted_str | exact Hf].
  - unfold list_images. rewrite length_map. apply Permutation_length.
    apply Permutation_filter', Permutation_py_sorted_str.
Qed.

(** X9: when no listed name starts with "/", the paths [list_images]
    returns are in sorted string order. *)
Theorem list_images_sorted (folder : string) (listing : list string) :
  Forall (fun f => String.prefix "/" f = false) listing ->
  StronglySorted (fun a b => String.leb a b = true) (list_images folder listing).
Proof.
  intros Hl. rewrite Forall_forall in Hl. unfold list_images.
  apply StronglySorted_map_in with (R := fun a b => String.leb a b = true).
  - intros a b Ha Hb Hab. apply filter_In in Ha as [Ha _]. apply filter_In in Hb as [Hb _].
    assert (Pa : String.prefix "/" a = false)
      by (apply Hl; eapply Permutation_in; [apply Permutation_py_sorted_str | exact Ha]).
    assert (Pb : String.prefix "/" b = false)
      by (apply Hl; eapply Permutation_in; [apply Permutation_py_sorted_str | exact Hb]).
    rewrite !path_join_prefix by assumption. unfold String.leb in *.
    rewrite str_compare_app_l. exact Hab.
  - apply StronglySorted_filter', py_sorted_str_sorted.
Qed.

Lemma list_images_sorted_witness :
  Forall (fun f => String.prefix "/" f = false) ["b.png"; "a.JPG"; "c.txt"]%string
  /\ StronglySorted (fun a b => String.leb a b = true) (list_images "d" ["b.png"; "a.JPG"; "c.txt"]%string).
Proof.
  assert (F : Forall (fun f => String.prefix "/" f = false) ["b.png"; "a.JPG"; "c.txt"]%string).
  { repeat (apply Forall_cons || apply Forall_nil); reflexivity. }
  split; [exact F|]. apply (list_images_sorted "d" _ F).
Defined.

(** X10: reading back the folder the sample generator wrote: when the
    folder lists exactly the files [sample_1.png .. sample_count.png],
    [list_images] returns exactly the paths the generator saved, each
    once, up to order. *)
Theorem list_images_samples (dir : string) (count : nat) (listing : list string) :
  Permutation listing (map sample_base_name (map Z.of_nat (seq 0 count))) ->
  Permutation (list_images dir listing) (sample_file_names dir count).
Proof.
  intros P. unfold list_images, sample_file_names.
  replace (map (fun i => sample_file_name dir (Z.of_nat i)) (seq 0 count))
    with (map (path_join dir) (map sample_base_name (map Z.of_nat (seq 0 count))))
    by (rewrite !map_map; reflexivity).
  apply Permutation_map.
  rewrite <- (forallb_filter_id is_image_name (map sample_base_name (map Z.of_nat (seq 0 count)))).
  - eapply perm_trans; [apply Permutation_filter', Permutation_py_sorted_str|].
    apply Permutation_filter', P.
  - apply forallb_forall. intros x Hx. apply in_map_iff in Hx as [i [<- _]].
    apply sample_base_name_png.
Qed.

Lemma list_images_samples_witness :
  Permutation ["sample_2.png"; "sample_1.png"]%string (map sample_base_name (map Z.of_nat (seq 0 2)))
  /\ Permutation (list_images "d" ["sample_2.png"; "sample_1.png"]%string) (sample_file_names "d" 2).
Proof.
  assert (P : Permutation ["sample_2.png"; "sample_1.png"]%string
                (map sample_base_name (map Z.of_nat (seq 0 2)))).
  { vm_compute. apply perm_swap. }
  split; [exact P|]. exact (list_images_samples "d" 2 _ P).
Defined.

(** X11: the sample generator saves its images under pairwise distinct
    paths, so none overwrites another. *)
Theorem sample_file_names_nodup (dir : string) (count : nat) : NoDup (sample_file_names dir count).
Proof.
  unfold sample_file_names. apply NoDup_map_seq. intros i j E.
  rewrite !sample_file_name_split in E. apply str_app_inv_l in E.
  apply sample_base_name_inj in E; lia.
Qed.

(** X12: the page files written by [main] to a directory have pairwise
    distinct paths, whatever the number of pages. *)
Theorem page_file_names_nodup (out : string) (n : nat) : NoDup (page_file_names out n).
Proof.
  unfold page_file_names. apply NoDup_map_seq. intros i j E.
  apply page_file_name_inj in E; lia.
Qed.

(** X13: the page file paths are in strictly increasing string order
    (so a sorted directory listing gives the pages in order) exactly
    when there are at most 999 pages; with 1000 pages or more,
    [page_1000.jpg] sorts before [page_101.jpg]. *)
Theorem page_file_names_sorted (out : string) (n : nat) :
  StronglySorted (fun a b => String.ltb a b = true) (page_file_names out n) <-> (n <= 999)%nat.
Proof.
  unfold page_file_names. split.
  - intros H. destruct (Nat.le_gt_cases n 999) as [Hn|Hn]; [exact Hn|exfalso].
    pose proof (StronglySorted_map_seq_inv _ _ 1 n 101 1000 H ltac:(lia) ltac:(lia) ltac:(lia)) as C.
    cbv beta in C. rewrite !page_file_name_split in C. unfold String.ltb in C.
    rewrite str_compare_app_l in C. vm_compute in C. discriminate.
  - intros Hn. apply StronglySorted_map_seq. intros i j Hi Hij Hj.
    rewrite !page_file_name_split. unfold String.ltb.
    rewrite !py_format_03d_three by lia. rewrite !str_compare_app_l.
    rewrite three_digits_lt by lia. reflexivity.
Qed.

(** X14: for a dpi from 0 to 2400, the page size [main] computes from
    [--page] is exact: the inch size (8.5 x 11 for LETTER in any case,
    8.27 x 11.69 for A4 and for any other name) times the dpi, rounded
    to the nearest integer with ties to even; the binary64 products
    never change the result. *)
Theorem page_px_rounding (page : string) (dpi : Z) :
  0 <= dpi <= 2400 -> page_px page dpi = Ok (page_px_exact page dpi).
Proof.
  intros Hd. destruct (page_px_cases page dpi) as [E1 E2]. rewrite E1, E2.
  destruct (String.eqb _ _); [apply page_px_LETTER_range | apply page_px_A4_range]; exact Hd.
Qed.

Lemma page_px_rounding_witness :
  0 <= 50 <= 2400 /\ page_px "letter" 50 = Ok (page_px_exact "letter" 50).
Proof. split; [lia|]. apply page_px_rounding. lia. Defined.

(** X15: [compose_pages] returns one composed image per page of
    placements. *)
Theorem compose_pages_length (image : Type) new_page flatten resize paste
  (pil_images : list image) pages page_px composed :
  compose_pages image new_page flatten resize paste pil_images pages page_px = Ok composed ->
  length composed = length pages.
Proof. apply compose_pages_len. Qed.

Lemma compose_pages_length_witness :
  compose_pages unit (fun _ _ => Ok tt) (fun _ => Ok tt) (fun _ _ _ => Ok tt) (fun _ _ _ _ => Ok tt)
    [tt; tt] [[(0, 5, 5, 50, 40); (1, 60, 5, 30, 20)]] (200, 200) = Ok [tt]
  /\ length [tt] = length [[(0, 5, 5, 50, 40); (1, 60, 5, 30, 20)]].
Proof.
  split; [reflexivity|].
  apply (compose_pages_length unit (fun _ _ => Ok tt) (fun _ => Ok tt) (fun _ _ _ => Ok tt)
           (fun _ _ _ _ => Ok tt) [tt; tt] _ (200, 200)).
  reflexivity.
Defined.

(** X16: the layout [main] computes places every input image exactly
    once: the indices on its pages are a rearrangement of
    [0 .. len(images) - 1]. *)
Theorem main_layout_indices (dims : list (Z * Z)) (page_w_px page_h_px : Z) pages :
  main_layout dims page_w_px page_h_px = Ok pages ->
  Permutation (flat_map (map pl_idx) pages) (map Z.of_nat (seq 0 (length dims))).
Proof. apply main_layout_idx. Qed.

Lemma main_layout_indices_witness :
  main_layout [(100, 50); (40, 80)] 300 300 = Ok [[(1, 12, 12, 40, 80); (0, 64, 12, 100, 50)]]
  /\ Permutation (flat_map (map pl_idx) [[(1, 12, 12, 40, 80); (0, 64, 12, 100, 50)]])
       (map Z.of_nat (seq 0 (length [(100, 50); (40, 80)]))).
Proof.
  split; [vm_compute; reflexivity|]. apply (main_layout_indices [(100, 50); (40, 80)] 300 300).
  vm_compute. reflexivity.
Defined.

(** X17: in [main], [compose_pages] on the layout of the images never
    raises [IndexError] from [pil_images[idx]]: every index it looks up
    is in range (assuming the PIL operations themselves never raise
    [IndexError]). *)
Theorem main_compose_no_index_error (image : Type) new_page flatten resize paste
  (Hnew : forall w h, new_page w h <> Raise IndexError)
  (Hflat : forall im, flatten im <> Raise IndexError)
  (Hres : forall im w h, resize im w h <> Raise IndexError)
  (Hpaste : forall pg im x y, paste pg im x y <> Raise IndexError)
  (pil_images : list image) (dims : list (Z * Z)) (page_w_px page_h_px : Z) pages :
  length pil_images = length dims ->
  main_layout dims page_w_px page_h_px = Ok pages ->
  compose_pages image new_page flatten resize paste pil_images pages (page_w_px, page_h_px)
    <> Raise IndexError.
Proof.
  intros L E. apply (compose_pages_no_index_error image new_page flatten resize paste
                       Hnew Hflat Hres Hpaste).
  rewrite L. exact (main_layout_idx_range _ _ _ _ E).
Qed.

Lemma main_compose_no_index_error_witness :
  length [tt; tt] = length [(100, 50); (40, 80)]
  /\ main_layout [(100, 50); (40, 80)] 300 300 = Ok [[(1, 12, 12, 40, 80); (0, 64, 12, 100, 50)]]
  /\ compose_pages unit (fun _ _ => Ok tt) (fun _ => Ok tt) (fun _ _ _ => Ok tt)
       (fun _ _ _ _ => Ok tt) [tt; tt] [[(1, 12, 12, 40, 80); (0, 64, 12, 100, 50)]] (300, 300)
     <> Raise IndexError.
Proof.
  split; [reflexivity|]. split; [vm_compute; reflexivity|].
  apply (main_compose_no_index_error unit (fun _ _ => Ok tt) (fun _ => Ok tt) (fun _ _ _ => Ok tt)
           (fun _ _ _ _ => Ok tt)) with (dims := [(100, 50); (40, 80)]);
    try (intros; discriminate); [reflexivity|].
  vm_compute. reflexivity.
Defined.

(** X18: for a non-negative image size, drawing a shape's box never
    raises (every [randint] range is non-empty), and the box is ordered:
    its left edge is at most its right edge and its top at most its
    bottom. *)
Theorem sample_box_ok (w h r0 r1 r2 r3 : Z) :
  0 <= w -> 0 <= h ->
  0 <= r0 <= w / 4 -> 0 <= r1 <= h / 4 -> w / 2 <= r2 <= w -> h / 2 <= r3 <= h ->
  sample_box w h r0 r1 r2 r3 = Ok (r0, r1, r2, r3) /\ r0 <= r2 /\ r1 <= r3.
Proof.
  intros Hw Hh H0 H1 H2 H3. unfold sample_box, py_randint.
  assert (A : 0 <= w / 4) by (apply Z.div_pos; lia).
  assert (B : 0 <= h / 4) by (apply Z.div_pos; lia).
  assert (C : w / 2 <= w) by (apply Z.div_le_upper_bound; lia).
  assert (D : h / 2 <= h) by (apply Z.div_le_upper_bound; lia).
  assert (E : w / 4 <= w / 2) by (apply Z.div_le_compat_l; lia).
  assert (F : h / 4 <= h / 2) by (apply Z.div_le_compat_l; lia).
  rewrite (proj2 (Z.ltb_ge (w / 4) 0)) by lia. rewrite (proj2 (Z.ltb_ge (h / 4) 0)) by lia.
  rewrite (proj2 (Z.ltb_ge w (w / 2))) by lia. rewrite (proj2 (Z.ltb_ge h (h / 2))) by lia.
  simpl. split; [reflexivity | lia].
Qed.

Lemma sample_box_ok_witness :
  0 <= 100 /\ 0 <= 80 /\ 0 <= 10 <= 100 / 4 /\ 0 <= 5 <= 80 / 4 /\ 100 / 2 <= 60 <= 100
  /\ 80 / 2 <= 50 <= 80
  /\ (sample_box 100 80 10 5 60 50 = Ok (10, 5, 60, 50) /\ 10 <= 60 /\ 5 <= 50).
Proof.
  split; [lia|]. split; [lia|]. split; [vm_compute; split; congruence|].
  split; [vm_compute; split; congruence|]. split; [vm_compute; split; congruence|].
  split; [vm_compute; split; congruence|].
  apply (sample_box_ok 100 80 10 5 60 50); try lia; vm_compute; split; congruence.
Defined.
